(** * Uninformed graph searches (uninformedSearches.py)

    A shallow embedding of the search-tree engine: the [Graph] dictionary,
    the [Node] objects with their parent pointers and accumulated cost,
    [retrace_path], and the four traversals [breadth_first_search],
    [depth_first_search], [depth_limited_search] and
    [iterative_deepening_search], followed by the properties of the
    specification that concern them.

    Python dictionaries are finite maps; indexing a dictionary with an
    absent key raises [KeyError], which is an outcome of its own here.
    Python integers are [Z].  The two [while] loops of the frontier
    searches and the [while True] of iterative deepening take a fuel
    argument that counts loop iterations; depth limits are naturals (a
    negative limit never meets the [depth_limit == 0] test and is outside
    the modelled domain).  The recursion of the depth-limited search is
    given twice: as the text of the source has it, and on a call stack
    of bounded depth, where nesting too deeply raises the interpreter's
    recursion error. *)

From Stdlib Require Import Ascii String ZArith Lia.
From stdpp Require Import gmap strings list fin_maps pretty.

Open Scope Z_scope.

(** ** [str.title()] on byte strings *)

Definition is_lower (c : ascii) : bool :=
  let n := nat_of_ascii c in (97 <=? n)%nat && (n <=? 122)%nat.

Definition is_upper (c : ascii) : bool :=
  let n := nat_of_ascii c in (65 <=? n)%nat && (n <=? 90)%nat.

Definition to_upper (c : ascii) : ascii :=
  if is_lower c then ascii_of_nat (nat_of_ascii c - 32) else c.

Definition to_lower (c : ascii) : ascii :=
  if is_upper c then ascii_of_nat (nat_of_ascii c + 32) else c.

(** The loop of [string_title]: a lower-case letter is raised when the
    previous character is not cased, an upper-case letter is lowered when
    it is, and any other character resets the flag. *)
Fixpoint title_from (previous_is_cased : bool) (s : string) : string :=
  match s with
  | EmptyString => EmptyString
  | String c s' =>
      if is_lower c then
        String (if previous_is_cased then c else to_upper c) (title_from true s')
      else if is_upper c then
        String (if previous_is_cased then to_lower c else c) (title_from true s')
      else String c (title_from false s')
  end.

Definition title (s : string) : string := title_from false s.

(** ** Python values that meet in a comparison *)

(** [class Node]: identifier, parent reference, cost from the root. *)
#[local] Set Warnings "-register-all".
Inductive Node : Type :=
  mkNode (node_identifier : string) (parent : option Node) (total_path_cost : Z).

Definition get_node_identifier (n : Node) : string :=
  match n with mkNode i _ _ => i end.

Definition get_parent (n : Node) : option Node :=
  match n with mkNode _ p _ => p end.

Definition get_total_cost (n : Node) : Z :=
  match n with mkNode _ _ t => t end.

(** [Node.__init__]: the cost of the parent plus the edge cost; with
    [parent = None] the attribute lookup raises [AttributeError], which
    the constructor catches, and the cost is the edge cost alone. *)
Definition Node_init (node_identifier : string) (parent : option Node)
    (edge_cost : Z) : Node :=
  match parent with
  | Some p => mkNode node_identifier parent (get_total_cost p + edge_cost)
  | None => mkNode node_identifier None edge_cost
  end.

Definition add_child_node (self : Node) (child_node_identifier : string)
    (cost_to_reach_child_node : Z) : Node :=
  Node_init child_node_identifier (Some self) cost_to_reach_child_node.

(** The objects that the source compares with [==] through [in] and
    [not in]: strings, adjacency tuples and [Node] instances. *)
Inductive pyobj : Type :=
| OStr (s : string)
| OTuple (s : string) (c : Z)
| ONode (n : Node).

(** [obj == s] for a string [s]: a tuple or a [Node] instance (the class
    defines no [__eq__]) never equals a string. *)
Definition py_eq_str (obj : pyobj) (s : string) : bool :=
  match obj with
  | OStr t => bool_decide (t = s)
  | OTuple _ _ => false
  | ONode _ => false
  end.

(** [obj == (s, c)] for an adjacency tuple. *)
Definition py_eq_tuple (obj : pyobj) (e : string * Z) : bool :=
  match obj with
  | OTuple t d => bool_decide (t = e.1) && bool_decide (d = e.2)
  | OStr _ => false
  | ONode _ => false
  end.

Definition py_in_strs (obj : pyobj) (l : list string) : bool :=
  existsb (py_eq_str obj) l.

Definition py_in_tuples (obj : pyobj) (l : list (string * Z)) : bool :=
  existsb (py_eq_tuple obj) l.

(** ** [class Graph] *)

Definition create_node (graph_dict : gmap string (list (string * Z)))
    (nodeID : string) : gmap string (list (string * Z)) :=
  match graph_dict !! title nodeID with
  | Some _ => graph_dict
  | None => <[title nodeID := []]> graph_dict
  end.

(** [create_arc]: the membership test compares the destination string
    with the tuples of the adjacency list. *)
Definition create_arc (graph_dict : gmap string (list (string * Z)))
    (origin destination : string) (cost : Z) : gmap string (list (string * Z)) :=
  let d1 := match graph_dict !! title origin with
            | Some _ => graph_dict
            | None => create_node graph_dict (title origin)
            end in
  match d1 !! title origin with
  | Some adj =>
      if negb (py_in_tuples (OStr (title destination)) adj)
      then <[title origin := adj ++ [(title destination, cost)]]> d1
      else d1
  | None => d1
  end.

Definition create_edge (graph_dict : gmap string (list (string * Z)))
    (origin destination : string) (cost : Z) : gmap string (list (string * Z)) :=
  let d1 := match graph_dict !! origin with
            | Some _ => graph_dict
            | None => create_node graph_dict origin
            end in
  let d2 := match d1 !! destination with
            | Some _ => d1
            | None => create_node d1 destination
            end in
  create_arc (create_arc d2 origin destination cost) destination origin cost.

Definition get_graph_nodes (graph_dict : gmap string (list (string * Z)))
    : list string :=
  (map_to_list graph_dict).*1.

(** ** Results of a search *)

(** What a search function hands back: the route string of
    [retrace_path] (kept as its identifiers and its cost), a message
    string, [False], [None]; or it raises [KeyError]; or it raises the
    interpreter's error for a recursion that nests too deeply
    ([RuntimeError: maximum recursion depth exceeded]); or the fuel of
    the model ran out before the loop ended. *)
Inductive result : Type :=
| Route (ids : list string) (cost : Z)
| Msg (s : string)
| PyFalse
| PyNone
| KeyError (key : string)
| RecursionError
| Diverge.

Fixpoint join (sep : string) (l : list string) : string :=
  match l with
  | [] => ""
  | [x] => x
  | x :: l' => x +:+ sep +:+ join sep l'
  end.

(** The Python string a returned value stands for, when it is a string. *)
Definition route_string (r : result) : option string :=
  match r with
  | Route ids cost =>
      Some (join ", " ids +:+ String (ascii_of_nat 10) "Total Path cost: " +:+ pretty cost)
  | Msg s => Some s
  | _ => None
  end.

(** Truth value of a returned value ([if path:], [if not result:]). *)
Definition truthy (r : result) : bool :=
  match r with
  | Route _ _ => true
  | Msg s => negb (bool_decide (s = ""))
  | _ => false
  end.

(** The [while current_node:] loop of [retrace_path], which inserts each
    identifier at the front of [traced_route]. *)
Fixpoint retrace_from (current_node : Node) (traced_route : list string)
    : list string :=
  match current_node with
  | mkNode i p _ =>
      match p with
      | None => i :: traced_route
      | Some p' => retrace_from p' (i :: traced_route)
      end
  end.

Definition retrace_path (dest_node : Node) : result :=
  match retrace_from dest_node [] with
  | [] => Msg "Path could not be retraced."
  | traced_route => Route traced_route (get_total_cost dest_node)
  end.

(** ** Breadth-first and depth-first search *)

(** The [for child_id in graph_dict[...]] loop, the same text in
    [breadth_first_search] and [depth_first_search]: the goal test when
    the child is created, then the frontier test, whose left operand
    compares the [Node] object [child] with identifier strings.  [inl]
    leaves the function (a [return] or a raised [KeyError]), [inr] is the
    frontier after the loop. *)
Fixpoint expand_children (visited_nodes : gmap string bool)
    (destination : string) (current_node : Node) (frontier : list Node)
    (adjacency : list (string * Z)) : result + list Node :=
  match adjacency with
  | [] => inr frontier
  | child_id :: rest =>
      let child := add_child_node current_node child_id.1 child_id.2 in
      if bool_decide (get_node_identifier child = destination) then
        inl (retrace_path child)
      else if negb (py_in_strs (ONode child) (get_node_identifier <$> frontier)) then
        match visited_nodes !! get_node_identifier child with
        | None => inl (KeyError (get_node_identifier child))
        | Some true => expand_children visited_nodes destination current_node frontier rest
        | Some false =>
            expand_children visited_nodes destination current_node (frontier ++ [child]) rest
        end
      else expand_children visited_nodes destination current_node frontier rest
  end.

(** One pass of the loop body after [current_node] was taken from the
    frontier; [continue_with] is the rest of the [while] loop. *)
Definition visit (graph_dict : gmap string (list (string * Z)))
    (destination : string) (visited_nodes : gmap string bool)
    (current_node : Node) (frontier : list Node)
    (continue_with : gmap string bool → list Node → result) : result :=
  match visited_nodes !! get_node_identifier current_node with
  | None => KeyError (get_node_identifier current_node)
  | Some true => continue_with visited_nodes frontier
  | Some false =>
      let visited_nodes' := <[get_node_identifier current_node := true]> visited_nodes in
      match graph_dict !! get_node_identifier current_node with
      | None => KeyError (get_node_identifier current_node)
      | Some [] => continue_with visited_nodes' frontier
      | Some adjacency =>
          match expand_children visited_nodes' destination current_node frontier adjacency with
          | inl r => r
          | inr frontier' => continue_with visited_nodes' frontier'
          end
      end
  end.

(** [while queue:] with [queue.pop(0)]. *)
Fixpoint bfs_loop (fuel : nat) (graph_dict : gmap string (list (string * Z)))
    (destination : string) (visited_nodes : gmap string bool)
    (queue : list Node) : result :=
  match queue with
  | [] => Msg "Path not found"
  | current_node :: queue' =>
      match fuel with
      | O => Diverge
      | S fuel' =>
          visit graph_dict destination visited_nodes current_node queue'
            (bfs_loop fuel' graph_dict destination)
      end
  end.

(** [stack.pop()]: the last element of the list and the list without it. *)
Fixpoint pop_last (stack : list Node) : option (list Node * Node) :=
  match stack with
  | [] => None
  | n :: stack' =>
      match pop_last stack' with
      | None => Some ([], n)
      | Some (rest, top) => Some (n :: rest, top)
      end
  end.

(** [while stack:] with [stack.pop()]. *)
Fixpoint dfs_loop (fuel : nat) (graph_dict : gmap string (list (string * Z)))
    (destination : string) (visited_nodes : gmap string bool)
    (stack : list Node) : result :=
  match pop_last stack with
  | None => Msg "Path not found"
  | Some (stack', current_node) =>
      match fuel with
      | O => Diverge
      | S fuel' =>
          visit graph_dict destination visited_nodes current_node stack'
            (dfs_loop fuel' graph_dict destination)
      end
  end.

(** [dict(zip(graph_nodes, [False] * len(graph_nodes)))]. *)
Definition initial_visited (graph_nodes : list string) : gmap string bool :=
  list_to_map (zip graph_nodes (replicate (length graph_nodes) false)).

(** The checks that open each of the four functions; [None] lets the
    search start. *)
Definition validate (graph_dict : gmap string (list (string * Z)))
    (origin destination : string) : option result :=
  if bool_decide (origin = destination) then
    Some (Msg "Source and Destination cannot be same.")
  else if negb (bool_decide (origin ∈ get_graph_nodes graph_dict)) then
    Some (Msg "Unable to find 'Source City' in the map.")
  else if negb (bool_decide (destination ∈ get_graph_nodes graph_dict)) then
    Some (Msg "Unable to find 'Destination City' in the map.")
  else None.

Definition breadth_first_search (fuel : nat)
    (graph : gmap string (list (string * Z))) (origin destination : string)
    : result :=
  let origin := title origin in
  let destination := title destination in
  match validate graph origin destination with
  | Some failure => failure
  | None =>
      let root := Node_init origin None 0 in
      bfs_loop fuel graph destination (initial_visited (get_graph_nodes graph)) [root]
  end.

Definition depth_first_search (fuel : nat)
    (graph : gmap string (list (string * Z))) (origin destination : string)
    : result :=
  let origin := title origin in
  let destination := title destination in
  match validate graph origin destination with
  | Some failure => failure
  | None =>
      let root := Node_init origin None 0 in
      dfs_loop fuel graph destination (initial_visited (get_graph_nodes graph)) [root]
  end.

(** ** Depth-limited and iterative-deepening search *)

(** The [for child_id in ...] loop of [recursive_dls]; [recurse] is the
    recursive call at [depth_limit - 1].  A result that is not true sets
    [cutoff_occurred]; falling off the end of the function returns
    [None]. *)
Fixpoint dls_children (recurse : Node → result) (current_node : Node)
    (adjacency : list (string * Z)) (cutoff_occurred : bool) : result :=
  match adjacency with
  | [] => if cutoff_occurred then PyFalse else PyNone
  | child_id :: rest =>
      let child_node := add_child_node current_node child_id.1 child_id.2 in
      match recurse child_node with
      | KeyError k => KeyError k
      | RecursionError => RecursionError
      | Diverge => Diverge
      | res =>
          if negb (truthy res) then dls_children recurse current_node rest true
          else res
      end
  end.

Fixpoint recursive_dls (graph : gmap string (list (string * Z)))
    (current_node : Node) (destination : string) (depth_limit : nat) : result :=
  if bool_decide (get_node_identifier current_node = destination) then
    retrace_path current_node
  else
    match depth_limit with
    | O => PyFalse
    | S depth_limit' =>
        match graph !! get_node_identifier current_node with
        | None => KeyError (get_node_identifier current_node)
        | Some adjacency =>
            dls_children
              (λ child_node, recursive_dls graph child_node destination depth_limit')
              current_node adjacency false
        end
    end.

Definition depth_limited_search (graph : gmap string (list (string * Z)))
    (origin destination : string) (depth_limit : nat) : result :=
  let origin := title origin in
  let destination := title destination in
  match validate graph origin destination with
  | Some failure => failure
  | None => recursive_dls graph (Node_init origin None 0) destination depth_limit
  end.

(** The [while True] loop: one unit of fuel per call of
    [depth_limited_search]. *)
Fixpoint ids_loop (fuel : nat) (graph : gmap string (list (string * Z)))
    (origin destination : string) (depth_limit step_size : nat) : result :=
  match fuel with
  | O => Diverge
  | S fuel' =>
      match depth_limited_search graph origin destination depth_limit with
      | KeyError k => KeyError k
      | RecursionError => RecursionError
      | path =>
          if truthy path then path
          else ids_loop fuel' graph origin destination (depth_limit + step_size) step_size
      end
  end.

Definition iterative_deepening_search (fuel : nat)
    (graph : gmap string (list (string * Z))) (origin destination : string)
    (step_size : nat) : result :=
  let origin := title origin in
  let destination := title destination in
  match validate graph origin destination with
  | Some failure => failure
  | None => ids_loop fuel graph origin destination 0 step_size
  end.

(** *** The recursion on the interpreter's call stack *)

(** [recursive_dls] above is the recursion as the text of the source
    gives it.  The interpreter runs it on a call stack of bounded depth:
    every activation of [recursive_dls] that goes on to expand its node
    calls [graph.get_graph_dict()] (with its [deepcopy]),
    [add_child_node] and itself, and an activation nested too deeply
    for these calls raises the recursion error, which nothing in the
    source catches.  [stack] is the number of nested levels at which an
    activation still has room to expand; the two tests on the node come
    first and need less room, so they also succeed on the level below
    the last one that expanded. *)
Fixpoint recursive_dls_stack (stack : nat)
    (graph : gmap string (list (string * Z)))
    (current_node : Node) (destination : string) (depth_limit : nat)
    {struct depth_limit} : result :=
  if bool_decide (get_node_identifier current_node = destination) then
    retrace_path current_node
  else
    match depth_limit with
    | O => PyFalse
    | S depth_limit' =>
        match stack with
        | O => RecursionError
        | S stack' =>
            match graph !! get_node_identifier current_node with
            | None => KeyError (get_node_identifier current_node)
            | Some adjacency =>
                dls_children
                  (λ child_node,
                     recursive_dls_stack stack' graph child_node destination
                       depth_limit')
                  current_node adjacency false
            end
        end
    end.

Definition depth_limited_search_stack (stack : nat)
    (graph : gmap string (list (string * Z)))
    (origin destination : string) (depth_limit : nat) : result :=
  let origin := title origin in
  let destination := title destination in
  match validate graph origin destination with
  | Some failure => failure
  | None =>
      recursive_dls_stack stack graph (Node_init origin None 0) destination
        depth_limit
  end.

(** Every round of the deepening loop starts its recursion at the same
    level of the stack. *)
Fixpoint ids_loop_stack (stack fuel : nat)
    (graph : gmap string (list (string * Z)))
    (origin destination : string) (depth_limit step_size : nat) : result :=
  match fuel with
  | O => Diverge
  | S fuel' =>
      match depth_limited_search_stack stack graph origin destination depth_limit with
      | KeyError k => KeyError k
      | RecursionError => RecursionError
      | path =>
          if truthy path then path
          else ids_loop_stack stack fuel' graph origin destination
                 (depth_limit + step_size) step_size
      end
  end.

Definition iterative_deepening_search_stack (stack fuel : nat)
    (graph : gmap string (list (string * Z))) (origin destination : string)
    (step_size : nat) : result :=
  let origin := title origin in
  let destination := title destination in
  match validate graph origin destination with
  | Some failure => failure
  | None => ids_loop_stack stack fuel graph origin destination 0 step_size
  end.

(** ** Graph notions used by the statements *)

(** [(y, c)] is an entry of the adjacency list stored under [x]. *)
Definition edge (g : gmap string (list (string * Z))) (x y : string) (c : Z)
    : Prop :=
  ∃ adjacency, g !! x = Some adjacency ∧ (y, c) ∈ adjacency.

(** A sequence of identifiers together with the stored cost of each of
    its steps. *)
Inductive walk (g : gmap string (list (string * Z)))
    : list string → list Z → Prop :=
| walk_one x : walk g [x] []
| walk_step x y ids c costs :
    edge g x y c → walk g (y :: ids) costs → walk g (x :: y :: ids) (c :: costs).

Definition sum_costs (costs : list Z) : Z := foldr Z.add 0 costs.

(** [ids] leads from [o] to [d] along stored edges. *)
Definition path_from_to (g : gmap string (list (string * Z)))
    (o d : string) (ids : list string) : Prop :=
  head ids = Some o ∧ last ids = Some d ∧ ∃ costs, walk g ids costs.

Definition reachable (g : gmap string (list (string * Z))) (o d : string)
    : Prop :=
  ∃ ids, path_from_to g o d ids.

(** The number of edges of a sequence of identifiers. *)
Definition edges_of (ids : list string) : nat := (length ids - 1)%nat.

(** Every identifier that occurs as a neighbour is a key of the
    dictionary (the graphs that [create_edge] alone builds). *)
Definition closed (g : gmap string (list (string * Z))) : Prop :=
  map_Forall (λ _ adjacency, Forall (λ e : string * Z, is_Some (g !! e.1)) adjacency) g.

(** [d] is reached from [o] in exactly [j] steps. *)
Inductive hops (g : gmap string (list (string * Z))) (o : string)
    : string → nat → Prop :=
| hops_O : hops g o o 0
| hops_S x y c j : hops g o x j → edge g x y c → hops g o y (S j).

(** Number of parent links above a node. *)
Fixpoint depth (n : Node) : nat :=
  match n with
  | mkNode _ p _ =>
      match p with
      | None => 0
      | Some p' => S (depth p')
      end
  end.

(** The nodes a search of [g] from [o] can build: the root, and children
    made by [add_child_node] from an adjacency entry of their parent. *)
Inductive wf_node (g : gmap string (list (string * Z))) (o : string)
    : Node → Prop :=
| wf_root : wf_node g o (Node_init o None 0)
| wf_child p i c :
    wf_node g o p → edge g (get_node_identifier p) i c →
    wf_node g o (add_child_node p i c).

(** ** Basic facts *)

Lemma Node_induction (P : Node → Prop) :
  (∀ i t, P (mkNode i None t)) →
  (∀ i p t, P p → P (mkNode i (Some p) t)) →
  ∀ n, P n.
Proof.
  intros Hroot Hchild.
  fix IH 1. intros [i [p|] t].
  - apply Hchild, IH.
  - apply Hroot.
Qed.

Lemma retrace_from_app n acc : retrace_from n acc = retrace_from n [] ++ acc.
Proof.
  revert acc. induction n as [i t|i p t IH] using Node_induction; intros acc.
  - reflexivity.
  - simpl. rewrite (IH (i :: acc)), (IH [i]), <- app_assoc. reflexivity.
Qed.

Lemma retrace_child p i c :
  retrace_from (add_child_node p i c) [] = retrace_from p [] ++ [i].
Proof. simpl. apply retrace_from_app. Qed.

Lemma retrace_length n : length (retrace_from n []) = S (depth n).
Proof.
  induction n as [i t|i p t IH] using Node_induction; [reflexivity|].
  simpl. rewrite retrace_from_app, length_app, IH. simpl. lia.
Qed.

Lemma retrace_path_route n :
  retrace_path n = Route (retrace_from n []) (get_total_cost n).
Proof.
  unfold retrace_path. pose proof (retrace_length n) as H.
  destruct (retrace_from n []); [discriminate|reflexivity].
Qed.

Lemma sum_costs_snoc costs c : sum_costs (costs ++ [c]) = sum_costs costs + c.
Proof. induction costs as [|a l IH]; simpl in *; lia. Qed.

Lemma walk_snoc g ids costs x y c :
  walk g ids costs → last ids = Some x → edge g x y c →
  walk g (ids ++ [y]) (costs ++ [c]).
Proof.
  induction 1 as [z|z w l c' cs He Hw IH]; intros Hl Hxy.
  - simpl in Hl. injection Hl as ->. simpl. constructor; [done|constructor].
  - simpl. constructor; [done|]. apply IH; [|done]. exact Hl.
Qed.

Lemma walk_length g ids costs : walk g ids costs → length ids = S (length costs).
Proof. induction 1; simpl in *; lia. Qed.

(** A well-formed node retraces to a walk from the origin to its own
    identifier whose stored costs add up to the node's total cost. *)
Lemma wf_node_walk g o n :
  wf_node g o n →
  head (retrace_from n []) = Some o ∧
  last (retrace_from n []) = Some (get_node_identifier n) ∧
  ∃ costs, walk g (retrace_from n []) costs ∧
           get_total_cost n = sum_costs costs.
Proof.
  induction 1 as [|p i c Hp (Hh & Hl & costs & Hw & Hc) He].
  - simpl. split; [done|]. split; [done|].
    exists []. split; [constructor|reflexivity].
  - rewrite retrace_child. split; [|split].
    + destruct (retrace_from p []); [discriminate|exact Hh].
    + apply last_snoc.
    + exists (costs ++ [c]). split.
      * eapply walk_snoc; eauto.
      * rewrite sum_costs_snoc. simpl. lia.
Qed.

Lemma hops_cons g x y c z j : edge g x y c → hops g y z j → hops g x z (S j).
Proof.
  intros He. induction 1 as [|u v c' j' Hh IH He'].
  - econstructor; [constructor|exact He].
  - econstructor; [exact IH|exact He'].
Qed.

Lemma walk_hops g ids costs o d :
  walk g ids costs → head ids = Some o → last ids = Some d →
  hops g o d (edges_of ids).
Proof.
  unfold edges_of. intros Hw. revert o.
  induction Hw as [z|z w l c cs He Hw IH]; intros o Hh Hl.
  - simpl in *. injection Hh as <-. injection Hl as <-. constructor.
  - simpl in Hh. injection Hh as <-.
    specialize (IH w eq_refl Hl). simpl in *.
    rewrite Nat.sub_0_r in IH. eapply hops_cons; eauto.
Qed.

(** *** Title case *)

Lemma to_upper_cased c :
  is_lower c = true → is_lower (to_upper c) = false ∧ is_upper (to_upper c) = true.
Proof.
  destruct c as [[] [] [] [] [] [] [] []]; vm_compute; intros H;
    first [discriminate H | split; reflexivity].
Qed.

Lemma to_lower_cased c :
  is_lower c = false → is_upper c = true → is_lower (to_lower c) = true.
Proof.
  destruct c as [[] [] [] [] [] [] [] []]; vm_compute; intros H1 H2;
    first [discriminate H1 | discriminate H2 | reflexivity].
Qed.

Lemma title_from_idempotent b s : title_from b (title_from b s) = title_from b s.
Proof.
  revert b. induction s as [|c s IH]; intros b; [reflexivity|].
  simpl. destruct (is_lower c) eqn:Hl; [|destruct (is_upper c) eqn:Hu].
  - destruct b; simpl.
    + rewrite Hl, IH. reflexivity.
    + destruct (to_upper_cased c Hl) as [-> ->]. rewrite IH. reflexivity.
  - destruct b; simpl.
    + rewrite (to_lower_cased c Hl Hu), IH. reflexivity.
    + rewrite Hl, Hu, IH. reflexivity.
  - simpl. rewrite Hl, Hu, IH. reflexivity.
Qed.

Lemma title_idempotent s : title (title s) = title s.
Proof. apply title_from_idempotent. Qed.

(** *** The node list and the initial visited map *)

Lemma elem_of_get_graph_nodes (g : gmap string (list (string * Z))) k :
  k ∈ get_graph_nodes g ↔ is_Some (g !! k).
Proof.
  unfold get_graph_nodes. rewrite list_elem_of_fmap. split.
  - intros ([k' adj] & -> & Hin). apply elem_of_map_to_list in Hin. eauto.
  - intros [adj Hadj]. exists (k, adj). split; [done|].
    by apply elem_of_map_to_list.
Qed.

Lemma zip_replicate_false (l : list string) :
  zip l (replicate (length l) false) = (λ k, (k, false)) <$> l.
Proof. induction l as [|k l IH]; simpl; [done|by rewrite IH]. Qed.

Lemma initial_visited_lookup (g : gmap string (list (string * Z))) k :
  initial_visited (get_graph_nodes g) !! k = (λ _, false) <$> (g !! k).
Proof.
  unfold initial_visited, get_graph_nodes.
  rewrite zip_replicate_false, <- list_fmap_compose.
  rewrite (list_fmap_ext _ (prod_map id (λ _ : list (string * Z), false)) (map_to_list g))
    by (by intros ? []).
  rewrite list_to_map_fmap, list_to_map_to_list, lookup_fmap. reflexivity.
Qed.

Lemma validate_None g o d :
  validate g o d = None ↔ o ≠ d ∧ is_Some (g !! o) ∧ is_Some (g !! d).
Proof.
  unfold validate. rewrite <- !elem_of_get_graph_nodes.
  repeat case_bool_decide; simpl; split; try done; intros (? & ? & ?); done.
Qed.

(** *** The loop over the adjacency list *)

(** A [Node] object is never found in a list of identifier strings. *)
Lemma py_in_strs_node n l : py_in_strs (ONode n) l = false.
Proof. induction l as [|s l IH]; [reflexivity|exact IH]. Qed.

(** The children that the loop appends: those whose identifier is
    recorded as not visited. *)
Definition new_children (visited_nodes : gmap string bool)
    (current_node : Node) (adjacency : list (string * Z)) : list Node :=
  (λ e : string * Z, add_child_node current_node e.1 e.2)
    <$> filter (λ e : string * Z, visited_nodes !! e.1 = Some false) adjacency.

Lemma expand_children_inr visited d cur frontier adjacency q :
  expand_children visited d cur frontier adjacency = inr q →
  q = frontier ++ new_children visited cur adjacency ∧
  Forall (λ e : string * Z, e.1 ≠ d ∧ is_Some (visited !! e.1)) adjacency.
Proof.
  revert frontier. induction adjacency as [|[i c] adj IH]; intros frontier; simpl.
  - intros [= <-]. unfold new_children. simpl. by rewrite app_nil_r.
  - rewrite py_in_strs_node. simpl. case_bool_decide as Hd; [done|].
    unfold new_children. rewrite filter_cons. simpl.
    destruct (visited !! i) as [[]|] eqn:Hv; [| |done]; intros H;
      apply IH in H as [-> HF].
    + rewrite decide_False by done. split; [done|].
      constructor; [|done]. simpl. eauto.
    + rewrite decide_True by done. rewrite fmap_cons, <- app_assoc. simpl.
      split; [done|]. constructor; [|done]. simpl. eauto.
Qed.

Lemma expand_children_inl visited d cur frontier adjacency r :
  expand_children visited d cur frontier adjacency = inl r →
  (∃ c, (d, c) ∈ adjacency ∧ r = retrace_path (add_child_node cur d c)) ∨
  (∃ k c, (k, c) ∈ adjacency ∧ visited !! k = None ∧ r = KeyError k).
Proof.
  revert frontier. induction adjacency as [|[i c] adj IH]; intros frontier; simpl.
  - done.
  - rewrite py_in_strs_node. simpl. case_bool_decide as Hd.
    + intros [= <-]. left. exists c. subst i. split; [left|done].
    + destruct (visited !! i) as [[]|] eqn:Hv.
      * intros H. apply IH in H as [(c' & ? & ?)|(k & c' & ? & ? & ?)];
          [left; exists c'|right; exists k, c']; split_and?; try done; by right.
      * intros H. apply IH in H as [(c' & ? & ?)|(k & c' & ? & ? & ?)];
          [left; exists c'|right; exists k, c']; split_and?; try done; by right.
      * intros [= <-]. right. exists i, c. split_and?; [left|done|done].
Qed.

(** *** One visit of a frontier node *)

(** What both frontier loops keep true: the visited map has the keys of
    the graph, and every frontier node was built along stored edges and
    carries a recorded identifier. *)
Definition frontier_ok (g : gmap string (list (string * Z))) (o : string)
    (visited : gmap string bool) (frontier : list Node) : Prop :=
  (∀ k, is_Some (visited !! k) ↔ is_Some (g !! k)) ∧
  Forall (λ n, wf_node g o n ∧ is_Some (visited !! get_node_identifier n)) frontier.

(** Adjacency entries still to be generated: those stored under
    identifiers not yet marked visited. *)
Definition pending (g : gmap string (list (string * Z)))
    (visited : gmap string bool) : nat :=
  sum_list_with
    (λ kv : string * list (string * Z),
       match visited !! kv.1 with Some true => 0%nat | _ => length kv.2 end)
    (map_to_list g).

Definition work (g : gmap string (list (string * Z)))
    (visited : gmap string bool) (frontier : list Node) : nat :=
  (length frontier + pending g visited)%nat.

Lemma sum_list_with_ext_in {A} (f h : A → nat) (l : list A) :
  Forall (λ x, f x = h x) l → sum_list_with f l = sum_list_with h l.
Proof. induction 1 as [|x l Hx _ IH]; simpl; [done|by rewrite Hx, IH]. Qed.

Lemma pending_insert g visited v adjacency :
  g !! v = Some adjacency → visited !! v = Some false →
  (pending g (<[v:=true]> visited) + length adjacency = pending g visited)%nat.
Proof.
  intros Hg Hv. unfold pending.
  rewrite <- !(sum_list_with_Permutation_proper _ _ _ (map_to_list_delete g v adjacency Hg)).
  simpl. rewrite lookup_insert_eq, Hv.
  rewrite (sum_list_with_ext_in _
    (λ kv : string * list (string * Z),
       match visited !! kv.1 with Some true => 0%nat | _ => length kv.2 end)).
  - lia.
  - apply Forall_forall. intros [k a] Hin. simpl.
    apply elem_of_map_to_list in Hin.
    rewrite lookup_insert_ne; [done|]. intros <-.
    by rewrite lookup_delete_eq in Hin.
Qed.

Lemma new_children_length visited cur adjacency :
  (length (new_children visited cur adjacency) ≤ length adjacency)%nat.
Proof. unfold new_children. rewrite length_fmap. apply length_filter. Qed.

(** The ways a visit can go: the node was already expanded; or it is
    expanded now and the destination is among its neighbours, or a
    neighbour is not recorded, or the loop goes on with the new children
    at the end of the frontier. *)
Lemma visit_cases g d visited cur frontier
    (continue_with : gmap string bool → list Node → result) :
  is_Some (visited !! get_node_identifier cur) →
  is_Some (g !! get_node_identifier cur) →
  (visited !! get_node_identifier cur = Some true ∧
   visit g d visited cur frontier continue_with = continue_with visited frontier) ∨
  (∃ adjacency,
     visited !! get_node_identifier cur = Some false ∧
     g !! get_node_identifier cur = Some adjacency ∧
     ((∃ c, (d, c) ∈ adjacency ∧
            visit g d visited cur frontier continue_with
            = retrace_path (add_child_node cur d c)) ∨
      (∃ k c, (k, c) ∈ adjacency ∧
              <[get_node_identifier cur := true]> visited !! k = None ∧
              visit g d visited cur frontier continue_with = KeyError k) ∨
      (Forall (λ e : string * Z,
                 e.1 ≠ d ∧
                 is_Some (<[get_node_identifier cur := true]> visited !! e.1))
              adjacency ∧
       visit g d visited cur frontier continue_with
       = continue_with (<[get_node_identifier cur := true]> visited)
           (frontier ++ new_children (<[get_node_identifier cur := true]> visited)
                          cur adjacency)))).
Proof.
  intros [b Hb] [adjacency Hadj]. unfold visit. rewrite Hb, Hadj.
  destruct b; [left; done|]. right. exists adjacency. split_and?; [done..|].
  destruct adjacency as [|e adj'].
  { right; right. split; [constructor|]. unfold new_children. simpl.
    by rewrite app_nil_r. }
  destruct (expand_children _ d cur frontier (e :: adj')) as [r|q] eqn:Hex.
  - apply expand_children_inl in Hex as [(c & ? & ->)|(k & c & ? & ? & ->)].
    + left. by exists c.
    + right; left. by exists k, c.
  - apply expand_children_inr in Hex as [-> HF]. right; right. done.
Qed.

Lemma frontier_ok_skip g o visited cur frontier :
  frontier_ok g o visited (cur :: frontier) → frontier_ok g o visited frontier.
Proof. intros [Hdom HF]. split; [done|]. by apply Forall_cons in HF as [_ ?]. Qed.

Lemma frontier_ok_expand g o visited cur frontier adjacency :
  frontier_ok g o visited frontier →
  wf_node g o cur →
  is_Some (visited !! get_node_identifier cur) →
  g !! get_node_identifier cur = Some adjacency →
  frontier_ok g o (<[get_node_identifier cur := true]> visited)
    (frontier ++ new_children (<[get_node_identifier cur := true]> visited) cur adjacency).
Proof.
  intros [Hdom HF] Hwf Hcur Hadj.
  assert (Hkeep : ∀ k, is_Some (visited !! k) →
                       is_Some (<[get_node_identifier cur := true]> visited !! k)).
  { intros k Hk. rewrite lookup_insert. case_decide; eauto. }
  split.
  - intros k. rewrite <- Hdom, lookup_insert. case_decide; [|done].
    subst k. split; eauto.
  - apply Forall_app. split.
    + eapply Forall_impl; [exact HF|]. intros n [? ?]. eauto.
    + unfold new_children. apply Forall_fmap, Forall_forall.
      intros [i c] Hin. apply list_elem_of_filter in Hin as [Hv Hin]. simpl in *.
      split; [|by rewrite Hv]. constructor; [done|]. by exists adjacency.
Qed.

Lemma work_expand g visited cur frontier adjacency :
  g !! get_node_identifier cur = Some adjacency →
  visited !! get_node_identifier cur = Some false →
  (work g (<[get_node_identifier cur := true]> visited)
     (frontier ++ new_children (<[get_node_identifier cur := true]> visited)
                    cur adjacency)
   ≤ work g visited frontier)%nat.
Proof.
  intros Hadj Hv. unfold work. rewrite length_app.
  pose proof (pending_insert g visited _ adjacency Hadj Hv).
  pose proof (new_children_length (<[get_node_identifier cur := true]> visited)
                cur adjacency).
  lia.
Qed.

(** *** Outcomes of the two frontier loops *)

(** The possible results of a frontier loop started with [fuel] on a
    state whose remaining work is at most [budget]: the fuel ran out
    (only when it was less than the budget), the frontier emptied, a
    neighbour that is no key was met, or the route of a node built along
    stored edges down to the destination. *)
Definition loop_outcome (g : gmap string (list (string * Z))) (o d : string)
    (budget fuel : nat) (r : result) : Prop :=
  (r = Diverge ∧ (fuel < budget)%nat) ∨
  r = Msg "Path not found" ∨
  (∃ k x c, r = KeyError k ∧ edge g x k c ∧ g !! k = None) ∨
  (∃ n, wf_node g o n ∧ get_node_identifier n = d ∧ r = retrace_path n).

Lemma loop_outcome_mono g o d budget budget' fuel r :
  loop_outcome g o d budget fuel r → (S budget ≤ budget')%nat →
  loop_outcome g o d budget' (S fuel) r.
Proof.
  intros [[-> ?]|[->|[H|H]]] ?; unfold loop_outcome; [left|auto..].
  split; [done|lia].
Qed.

Lemma visit_outcome g o d fuel visited cur frontier
    (continue_with : gmap string bool → list Node → result) :
  (∀ visited' frontier',
     frontier_ok g o visited' frontier' →
     loop_outcome g o d (work g visited' frontier') fuel
       (continue_with visited' frontier')) →
  frontier_ok g o visited frontier →
  wf_node g o cur →
  is_Some (visited !! get_node_identifier cur) →
  loop_outcome g o d (S (work g visited frontier)) (S fuel)
    (visit g d visited cur frontier continue_with).
Proof.
  intros IH Hok Hwf Hcur.
  assert (Hg : is_Some (g !! get_node_identifier cur)) by (by apply Hok).
  destruct (visit_cases g d visited cur frontier continue_with Hcur Hg)
    as [[Hv ->]|(adjacency & Hv & Hadj & [(c & Hin & ->)|[(k & c & Hin & Hk & ->)|[HF ->]]])].
  - eapply loop_outcome_mono; [by apply IH|lia].
  - do 3 right. exists (add_child_node cur d c). split_and?; [|done..].
    constructor; [done|]. by exists adjacency.
  - right; right; left. exists k, (get_node_identifier cur), c. split_and?; [done| |].
    + by exists adjacency.
    + destruct Hok as [Hdom _]. apply eq_None_not_Some. rewrite <- Hdom.
      intros Hs. apply eq_None_not_Some in Hk. apply Hk.
      rewrite lookup_insert. case_decide; eauto.
  - eapply loop_outcome_mono.
    + apply IH. by apply frontier_ok_expand.
    + pose proof (work_expand g visited cur frontier adjacency Hadj Hv). lia.
Qed.

Lemma bfs_loop_outcome g o d fuel visited queue :
  frontier_ok g o visited queue →
  loop_outcome g o d (work g visited queue) fuel (bfs_loop fuel g d visited queue).
Proof.
  revert visited queue. induction fuel as [|fuel IH]; intros visited queue Hok.
  - destruct queue; simpl; unfold loop_outcome;
      [auto|left; split; [done|unfold work; simpl; lia]].
  - destruct queue as [|cur queue]; simpl; [unfold loop_outcome; auto|].
    destruct Hok as [Hdom HF]. apply Forall_cons in HF as [[Hwf Hcur] HF].
    change (work g visited (cur :: queue)) with (S (work g visited queue)).
    apply visit_outcome; [exact IH|by split|done..].
Qed.

Lemma pop_last_None stack : pop_last stack = None → stack = [].
Proof. destruct stack as [|n l]; [done|]. simpl. by destruct (pop_last l) as [[]|]. Qed.

Lemma pop_last_Some stack rest top :
  pop_last stack = Some (rest, top) → stack = rest ++ [top].
Proof.
  revert rest top. induction stack as [|n l IH]; intros rest top; [done|].
  simpl. destruct (pop_last l) as [[r t]|] eqn:Hp.
  - intros [= <- <-]. by rewrite (IH r t eq_refl).
  - intros [= <- <-]. by rewrite (pop_last_None l Hp).
Qed.

Lemma dfs_loop_outcome g o d fuel visited stack :
  frontier_ok g o visited stack →
  loop_outcome g o d (work g visited stack) fuel (dfs_loop fuel g d visited stack).
Proof.
  revert visited stack. induction fuel as [|fuel IH]; intros visited stack Hok.
  - simpl. destruct (pop_last stack) as [[rest top]|] eqn:Hp;
      unfold loop_outcome; [left; split; [done|]|auto].
    apply pop_last_Some in Hp as ->. unfold work. rewrite length_app. simpl. lia.
  - simpl. destruct (pop_last stack) as [[rest top]|] eqn:Hp;
      [|unfold loop_outcome; auto].
    apply pop_last_Some in Hp as ->.
    destruct Hok as [Hdom HF]. apply Forall_app in HF as [HF Htop].
    apply Forall_singleton in Htop as [Hwf Hcur].
    replace (work g visited (rest ++ [top])) with (S (work g visited rest))
      by (unfold work; rewrite length_app; simpl; lia).
    apply visit_outcome; [exact IH|by split|done..].
Qed.

(** The state in which both loops start. *)
Lemma frontier_ok_initial g o :
  is_Some (g !! o) →
  frontier_ok g o (initial_visited (get_graph_nodes g)) [Node_init o None 0].
Proof.
  intros Ho. split.
  - intros k. rewrite initial_visited_lookup, fmap_is_Some. done.
  - apply Forall_singleton. split; [constructor|].
    simpl. rewrite initial_visited_lookup, fmap_is_Some. done.
Qed.

(** Fuel that is enough for either frontier loop on [g]: one pass for the
    root and one for every stored adjacency entry. *)
Definition enough_fuel (g : gmap string (list (string * Z))) : nat :=
  S (sum_list_with (λ kv : string * list (string * Z), length kv.2) (map_to_list g)).

Lemma work_initial g o :
  (work g (initial_visited (get_graph_nodes g)) [Node_init o None 0]
   ≤ enough_fuel g)%nat.
Proof.
  unfold work, enough_fuel, pending. simpl.
  rewrite (sum_list_with_ext_in _
    (λ kv : string * list (string * Z), length kv.2)); [lia|].
  apply Forall_forall. intros [k a] Hin. simpl.
  rewrite initial_visited_lookup. by destruct (g !! k).
Qed.

(** *** Outcomes of the depth-limited recursion *)

Lemma wf_node_reachable g o n :
  wf_node g o n → path_from_to g o (get_node_identifier n) (retrace_from n []).
Proof.
  intros Hwf. destruct (wf_node_walk g o n Hwf) as (Hh & Hl & costs & Hw & _).
  unfold path_from_to. split_and!; [done|done|by exists costs].
Qed.

Lemma closed_edge g x y c : closed g → edge g x y c → is_Some (g !! y).
Proof.
  intros Hcl (adjacency & Hx & Hin).
  pose proof (map_Forall_lookup_1 _ _ _ _ Hcl Hx) as HF. simpl in HF.
  rewrite Forall_forall in HF. exact (HF _ Hin).
Qed.

Lemma wf_node_key g o n :
  closed g → is_Some (g !! o) → wf_node g o n →
  is_Some (g !! get_node_identifier n).
Proof.
  intros Hcl Ho. induction 1 as [|p i c Hp IH He]; [done|].
  simpl. eapply closed_edge; eauto.
Qed.

(** The possible results of [recursive_dls] below a node of depth at most
    [bound - depth_limit]: cutoff, dead end, a node whose identifier is
    no key, or the route of a node no deeper than [bound]. *)
Definition dls_outcome (g : gmap string (list (string * Z))) (o d : string)
    (bound : nat) (r : result) : Prop :=
  r = PyFalse ∨ r = PyNone ∨
  (∃ m, wf_node g o m ∧ g !! get_node_identifier m = None ∧
        r = KeyError (get_node_identifier m)) ∨
  (∃ m, wf_node g o m ∧ get_node_identifier m = d ∧ (depth m ≤ bound)%nat ∧
        r = retrace_path m).

Lemma dls_children_outcome g o d bound (recurse : Node → result) cur adjacency b :
  Forall (λ e : string * Z,
            dls_outcome g o d bound (recurse (add_child_node cur e.1 e.2)))
         adjacency →
  dls_outcome g o d bound (dls_children recurse cur adjacency b).
Proof.
  intros HF. revert b. induction HF as [|e adj He _ IH]; intros b.
  - simpl. unfold dls_outcome. destruct b; auto.
  - simpl. destruct He as [->|[->|[(m & ? & ? & ->)|(m & ? & ? & ? & Hr)]]].
    + apply IH.
    + apply IH.
    + unfold dls_outcome. right; right; left. by exists m.
    + rewrite Hr, retrace_path_route. simpl. rewrite <- retrace_path_route.
      unfold dls_outcome. do 3 right. by exists m.
Qed.

Lemma recursive_dls_outcome g o d depth_limit n :
  wf_node g o n →
  dls_outcome g o d (depth n + depth_limit) (recursive_dls g n d depth_limit).
Proof.
  revert n. induction depth_limit as [|L IH]; intros n Hwf; simpl.
  - case_bool_decide as Hd.
    + unfold dls_outcome. do 3 right. exists n. split_and?; [done|done|lia|done].
    + unfold dls_outcome. auto.
  - case_bool_decide as Hd.
    + unfold dls_outcome. do 3 right. exists n. split_and?; [done|done|lia|done].
    + destruct (g !! get_node_identifier n) as [adjacency|] eqn:Hadj.
      * apply dls_children_outcome. apply Forall_forall. intros [i c] Hin.
        assert (Hc : wf_node g o (add_child_node n i c))
          by (constructor; [done|by exists adjacency]).
        specialize (IH _ Hc). simpl in IH.
        replace (depth n + S L)%nat with (S (depth n + L)) by lia. exact IH.
      * unfold dls_outcome. right; right; left. by exists n.
Qed.

(** On a closed graph the recursion meets no absent key. *)
Lemma recursive_dls_closed g o d depth_limit n :
  closed g → is_Some (g !! o) → wf_node g o n →
  recursive_dls g n d depth_limit = PyFalse ∨
  recursive_dls g n d depth_limit = PyNone ∨
  ∃ m, wf_node g o m ∧ get_node_identifier m = d ∧
       (depth m ≤ depth n + depth_limit)%nat ∧
       recursive_dls g n d depth_limit = retrace_path m.
Proof.
  intros Hcl Ho Hwf.
  destruct (recursive_dls_outcome g o d depth_limit n Hwf)
    as [?|[?|[(m & Hm & Hnone & _)|?]]]; auto.
  destruct (wf_node_key g o m Hcl Ho Hm) as [? Hsome]. congruence.
Qed.

Lemma depth_limited_search_start g o d depth_limit :
  validate g (title o) (title d) = None →
  depth_limited_search g o d depth_limit
  = recursive_dls g (Node_init (title o) None 0) (title d) depth_limit.
Proof. unfold depth_limited_search. by intros ->. Qed.

Lemma depth_limited_search_titled g o d depth_limit :
  depth_limited_search g (title o) (title d) depth_limit
  = depth_limited_search g o d depth_limit.
Proof. unfold depth_limited_search. by rewrite !title_idempotent. Qed.


(** The deepening loop never ends while every limit gives a result that
    is not true. *)
Lemma ids_loop_diverges g o d step_size fuel :
  ∀ start : nat,
    (∀ l, depth_limited_search g o d l = PyFalse ∨
          depth_limited_search g o d l = PyNone) →
    ids_loop fuel g o d start step_size = Diverge.
Proof.
  induction fuel as [|fuel IH]; intros start Hall; [reflexivity|].
  simpl. destruct (Hall start) as [->| ->]; simpl; by apply IH.
Qed.

(** *** Breadth-first search explores by levels *)

Section BreadthFirst.
Variable g : gmap string (list (string * Z)).
Variables o d : string.
Hypothesis origin_not_destination : o ≠ d.

(** The queue holds nodes of one depth followed by nodes one deeper. *)
Definition levels (queue : list Node) : Prop :=
  ∃ (k : nat) front back,
    queue = front ++ back ∧
    Forall (λ n, depth n = k) front ∧
    Forall (λ n, depth n = S k) back.

Definition bfs_inv (visited : gmap string bool) (queue : list Node) : Prop :=
  frontier_ok g o visited queue ∧
  levels queue ∧
  (visited !! o = Some true ∨ queue = [Node_init o None 0]) ∧
  (∀ x y c, visited !! x = Some true → edge g x y c → y ≠ d) ∧
  (∀ x y c j,
     visited !! x = Some true → edge g x y c → hops g o x j →
     visited !! y = Some true ∨
     ∃ n, n ∈ queue ∧ get_node_identifier n = y ∧ (depth n ≤ S j)%nat).

Lemma levels_head h t :
  levels (h :: t) → Forall (λ n, (depth h ≤ depth n)%nat) (h :: t).
Proof.
  intros (k & front & back & Heq & Hf & Hb).
  destruct front as [|a front]; simpl in Heq.
  - subst back. apply Forall_cons in Hb as Hb'. destruct Hb' as [Hh _].
    eapply Forall_impl; [exact Hb|]. simpl. intros n Hn. lia.
  - injection Heq as <- ->. apply Forall_cons in Hf as Hf'. destruct Hf' as [Hh _].
    rewrite app_comm_cons. apply Forall_app.
    split; (eapply Forall_impl; [eassumption|]); simpl; intros n Hn; lia.
Qed.

Lemma levels_pop h t : levels (h :: t) → levels t.
Proof.
  intros (k & front & back & Heq & Hf & Hb).
  destruct front as [|a front]; simpl in Heq.
  - subst back. apply Forall_cons in Hb as [_ Hb].
    exists (S k), t, []. rewrite app_nil_r. by split_and!.
  - injection Heq as <- ->. apply Forall_cons in Hf as [_ Hf].
    by exists k, front, back.
Qed.

Lemma levels_push h t children :
  levels (h :: t) →
  Forall (λ n, depth n = S (depth h)) children →
  levels (t ++ children).
Proof.
  intros (k & front & back & Heq & Hf & Hb) Hc.
  destruct front as [|a front]; simpl in Heq.
  - subst back. apply Forall_cons in Hb as [Hh Hb].
    exists (S k), t, children. split_and!; [done..|].
    eapply Forall_impl; [exact Hc|]. simpl. intros n ->. by rewrite Hh.
  - injection Heq as <- ->. apply Forall_cons in Hf as [Hh Hf].
    exists k, front, (back ++ children). rewrite app_assoc. split_and!; [done..|].
    apply Forall_app. split; [done|].
    eapply Forall_impl; [exact Hc|]. simpl. intros n ->. by rewrite Hh.
Qed.

(** Everything strictly nearer to the origin than the head of the queue
    has been expanded. *)
Lemma nearer_visited visited h t w j :
  bfs_inv visited (h :: t) → hops g o w j → (j < depth h)%nat →
  visited !! w = Some true.
Proof.
  intros (_ & Hlev & Horig & _ & Hsucc) Hh. 
  induction Hh as [|x y c j Hh IH He]; intros Hj.
  - destruct Horig as [?|[= -> ->]]; [done|]. simpl in Hj. lia.
  - destruct (Hsucc x y c j (IH ltac:(lia)) He Hh) as [?|(n & Hn & _ & Hdn)]; [done|].
    apply levels_head in Hlev. rewrite Forall_forall in Hlev.
    specialize (Hlev n Hn). lia.
Qed.

(** With the queue empty, everything reachable has been expanded. *)
Lemma reachable_visited visited w j :
  bfs_inv visited [] → hops g o w j → visited !! w = Some true.
Proof.
  intros (_ & _ & Horig & _ & Hsucc).
  induction 1 as [|x y c j Hh IH He].
  - by destruct Horig.
  - destruct (Hsucc x y c j IH He Hh) as [?|(n & Hn & _)]; [done|].
    by apply elem_of_nil in Hn.
Qed.

(** No walk to the destination passes through an expanded node in its
    last step. *)
Lemma destination_far (visited : gmap string bool) j (bound : nat) :
  (∀ x y c, visited !! x = Some true → edge g x y c → y ≠ d) →
  (∀ w i, hops g o w i → (i < bound)%nat → visited !! w = Some true) →
  hops g o d j → (bound < j)%nat.
Proof.
  intros Hgoal Hnear Hh. inversion Hh as [|x y c j' Hx He]; subst.
  - by destruct origin_not_destination.
  - destruct (decide (j' < bound)%nat) as [Hlt|]; [|lia].
    destruct (Hgoal x d c (Hnear x j' Hx Hlt) He eq_refl).
Qed.

Lemma bfs_inv_skip visited h t :
  bfs_inv visited (h :: t) →
  visited !! get_node_identifier h = Some true →
  bfs_inv visited t.
Proof.
  intros (Hok & Hlev & Horig & Hgoal & Hsucc) Hv. split_and!.
  - by eapply frontier_ok_skip.
  - by eapply levels_pop.
  - destruct Horig as [?|[= -> ->]]; [by left|]. by left.
  - done.
  - intros x y c j Hx He Hh.
    destruct (Hsucc x y c j Hx He Hh) as [?|(n & Hn & Hid & Hdn)]; [by left|].
    apply elem_of_cons in Hn as [->|Hn]; [left; congruence|].
    right. by exists n.
Qed.

Lemma bfs_inv_expand visited h t adjacency :
  bfs_inv visited (h :: t) →
  visited !! get_node_identifier h = Some false →
  g !! get_node_identifier h = Some adjacency →
  Forall (λ e : string * Z,
            e.1 ≠ d ∧ is_Some (<[get_node_identifier h := true]> visited !! e.1))
         adjacency →
  bfs_inv (<[get_node_identifier h := true]> visited)
    (t ++ new_children (<[get_node_identifier h := true]> visited) h adjacency).
Proof.
  intros Hinv Hv Hadj HF.
  pose proof Hinv as (Hok & Hlev & Horig & Hgoal & Hsucc).
  destruct Hok as [Hdom Hall]. apply Forall_cons in Hall as [[Hwf Hcur] Hall].
  assert (Hmono : ∀ k, visited !! k = Some true →
                       <[get_node_identifier h := true]> visited !! k = Some true).
  { intros k Hk. rewrite lookup_insert. by case_decide. }
  rewrite Forall_forall in HF.
  split_and!.
  - apply frontier_ok_expand; [by split|done..].
  - eapply levels_push; [exact Hlev|].
    unfold new_children. apply Forall_fmap, Forall_forall. by intros [i c] _.
  - left. destruct Horig as [?|[= -> ->]]; [by apply Hmono|].
    simpl. apply lookup_insert_eq.
  - intros x y c Hx He. rewrite lookup_insert in Hx. case_decide as Hxh.
    + subst x. destruct He as (adj' & Hadj' & Hin).
      rewrite Hadj in Hadj'. injection Hadj' as <-.
      by destruct (HF _ Hin).
    + by eapply Hgoal.
  - intros x y c j Hx He Hh. rewrite lookup_insert in Hx. case_decide as Hxh.
    + subst x. destruct He as (adj' & Hadj' & Hin).
      rewrite Hadj in Hadj'. injection Hadj' as <-.
      destruct (HF _ Hin) as [_ [[] Hy]]; simpl in Hy; [by left|].
      right. exists (add_child_node h y c). split_and!.
      * apply elem_of_app. right. unfold new_children.
        apply (list_elem_of_fmap_2 (λ e : string * Z, add_child_node h e.1 e.2) _ (y, c)).
        by apply list_elem_of_filter.
      * done.
      * simpl. destruct (decide (j < depth h)%nat) as [Hlt|]; [|lia].
        pose proof (nearer_visited visited h t _ j Hinv Hh Hlt). congruence.
    + destruct (Hsucc x y c j Hx He Hh) as [?|(n & Hn & Hid & Hdn)];
        [left; by apply Hmono|].
      apply elem_of_cons in Hn as [->|Hn].
      * left. rewrite Hid. apply lookup_insert_eq.
      * right. exists n. split_and!; [|done..]. apply elem_of_app. by left.
Qed.

Lemma bfs_inv_initial :
  is_Some (g !! o) →
  bfs_inv (initial_visited (get_graph_nodes g)) [Node_init o None 0].
Proof.
  intros Ho. split_and!.
  - by apply frontier_ok_initial.
  - exists 0%nat, [Node_init o None 0], []. split_and!; [done| |done].
    by apply Forall_singleton.
  - by right.
  - intros x y c Hx. rewrite initial_visited_lookup in Hx.
    by destruct (g !! x).
  - intros x y c j Hx. rewrite initial_visited_lookup in Hx.
    by destruct (g !! x).
Qed.

(** A result of the loop other than running out of fuel or meeting an
    absent key is exact: "not found" only when the destination cannot
    be reached, and otherwise the route of a node that no walk to the
    destination undercuts. *)
Lemma bfs_loop_levels fuel visited queue :
  bfs_inv visited queue →
  bfs_loop fuel g d visited queue = Diverge ∨
  (∃ k, bfs_loop fuel g d visited queue = KeyError k) ∨
  (bfs_loop fuel g d visited queue = Msg "Path not found" ∧ ∀ j, ¬ hops g o d j) ∨
  (∃ n, wf_node g o n ∧ get_node_identifier n = d ∧
        (∀ j, hops g o d j → (depth n ≤ j)%nat) ∧
        bfs_loop fuel g d visited queue = retrace_path n).
Proof.
  revert visited queue. induction fuel as [|fuel IH]; intros visited queue Hinv.
  - destruct queue; simpl; [|by left]. right; right; left. split; [done|].
    intros j Hh. pose proof (proj1 (proj2 (proj2 (proj2 Hinv)))) as Hgoal.
    inversion Hh as [|x y c j' Hx He]; subst; [done|].
    by destruct (Hgoal x d c (reachable_visited visited x j' Hinv Hx) He).
  - destruct queue as [|h t]; simpl.
    { right; right; left. split; [done|].
      intros j Hh. pose proof (proj1 (proj2 (proj2 (proj2 Hinv)))) as Hgoal.
      inversion Hh as [|x y c j' Hx He]; subst; [done|].
      by destruct (Hgoal x d c (reachable_visited visited x j' Hinv Hx) He). }
    pose proof Hinv as ([Hdom Hall] & _ & _ & Hgoal & _).
    apply Forall_cons in Hall as [[Hwf Hcur] Hall].
    assert (Hg : is_Some (g !! get_node_identifier h)) by (by apply Hdom).
    destruct (visit_cases g d visited h t (bfs_loop fuel g d) Hcur Hg)
      as [[Hv ->]|(adjacency & Hv & Hadj &
                   [(c & Hin & ->)|[(k & c & Hin & Hk & ->)|[HF ->]]])].
    + apply IH. by eapply bfs_inv_skip.
    + do 3 right. exists (add_child_node h d c). split_and!; [|done| |done].
      * constructor; [done|]. by exists adjacency.
      * intros j Hh. simpl.
        apply (destination_far visited j (depth h) Hgoal); [|done].
        intros w i Hw Hi. by eapply nearer_visited.
    + right; left. by exists k.
    + apply IH. by apply bfs_inv_expand.
Qed.
End BreadthFirst.

(** *** Results of the four functions *)

Lemma validate_Some g o d r :
  validate g o d = Some r →
  (o = d ∧ r = Msg "Source and Destination cannot be same.") ∨
  (o ≠ d ∧ g !! o = None ∧ r = Msg "Unable to find 'Source City' in the map.") ∨
  (o ≠ d ∧ is_Some (g !! o) ∧ g !! d = None ∧
   r = Msg "Unable to find 'Destination City' in the map.").
Proof.
  unfold validate.
  case_bool_decide as H1; [intros [= <-]; by left|].
  case_bool_decide as H2; simpl.
  - case_bool_decide as H3; simpl; [done|]. intros [= <-]. right; right.
    rewrite elem_of_get_graph_nodes in H2, H3.
    split_and!; [done..| |done]. by apply eq_None_not_Some.
  - intros [= <-]. right; left. rewrite elem_of_get_graph_nodes in H2.
    split_and!; [done| |done]. by apply eq_None_not_Some.
Qed.

(** A failed validation returns one of the three messages, which closes
    any goal that assumes it returned something else. *)
Ltac validation_failed Hval :=
  destruct (validate_Some _ _ _ _ Hval) as [[_ ?]|[(_ & _ & ?)|(_ & _ & _ & ?)]];
  congruence.

(** A returned route is the retraced chain of a well-formed node that
    carries the destination. *)
Definition route_of (g : gmap string (list (string * Z))) (o d : string)
    (r : result) : Prop :=
  ∃ n, wf_node g o n ∧ get_node_identifier n = d ∧ r = retrace_path n.

Lemma route_of_sound g o d ids cost :
  route_of g o d (Route ids cost) →
  path_from_to g o d ids ∧
  ∃ costs, walk g ids costs ∧ cost = sum_costs costs.
Proof.
  intros (n & Hwf & Hid & Hr). rewrite retrace_path_route in Hr.
  injection Hr as -> ->.
  destruct (wf_node_walk g o n Hwf) as (Hh & Hl & costs & Hw & Hc).
  subst d. split; [by apply wf_node_reachable|]. by exists costs.
Qed.

Lemma breadth_first_search_route fuel g o d ids cost :
  breadth_first_search fuel g o d = Route ids cost →
  route_of g (title o) (title d) (Route ids cost).
Proof.
  unfold breadth_first_search.
  destruct (validate g (title o) (title d)) as [failure|] eqn:Hval.
  { intros ->. validation_failed Hval. }
  apply validate_None in Hval as (_ & Ho & _). intros Hr.
  pose proof (bfs_loop_outcome g (title o) (title d) fuel _ _
                (frontier_ok_initial g (title o) Ho)) as Hout.
  rewrite Hr in Hout.
  destruct Hout as [[? _]|[?|[(? & ? & ? & ? & _)|?]]]; done.
Qed.

Lemma depth_first_search_route fuel g o d ids cost :
  depth_first_search fuel g o d = Route ids cost →
  route_of g (title o) (title d) (Route ids cost).
Proof.
  unfold depth_first_search.
  destruct (validate g (title o) (title d)) as [failure|] eqn:Hval.
  { intros ->. validation_failed Hval. }
  apply validate_None in Hval as (_ & Ho & _). intros Hr.
  pose proof (dfs_loop_outcome g (title o) (title d) fuel _ _
                (frontier_ok_initial g (title o) Ho)) as Hout.
  rewrite Hr in Hout.
  destruct Hout as [[? _]|[?|[(? & ? & ? & ? & _)|?]]]; done.
Qed.

Lemma depth_limited_search_route g o d depth_limit ids cost :
  depth_limited_search g o d depth_limit = Route ids cost →
  ∃ n, wf_node g (title o) n ∧ get_node_identifier n = title d ∧
       (depth n ≤ depth_limit)%nat ∧ Route ids cost = retrace_path n.
Proof.
  unfold depth_limited_search.
  destruct (validate g (title o) (title d)) as [failure|] eqn:Hval.
  { intros ->. validation_failed Hval. }
  intros Hr.
  pose proof (recursive_dls_outcome g (title o) (title d) depth_limit _
                (wf_root g (title o))) as Hout.
  rewrite Hr in Hout. simpl in Hout.
  destruct Hout as [?|[?|[(? & _ & _ & ?)|?]]]; done.
Qed.

Lemma ids_loop_result fuel g o d step_size :
  ∀ start : nat,
    ids_loop fuel g o d start step_size = Diverge ∨
    ∃ l, ids_loop fuel g o d start step_size = depth_limited_search g o d l.
Proof.
  induction fuel as [|fuel IH]; intros start; simpl; [by left|].
  destruct (depth_limited_search g o d start) eqn:Hr; simpl;
    try (apply IH); try (right; by exists start).
  case_bool_decide; simpl; [apply IH|right; by exists start].
Qed.

Lemma iterative_deepening_search_route fuel g o d step_size ids cost :
  iterative_deepening_search fuel g o d step_size = Route ids cost →
  ∃ l, depth_limited_search g o d l = Route ids cost.
Proof.
  unfold iterative_deepening_search.
  destruct (validate g (title o) (title d)) as [failure|] eqn:Hval.
  { intros ->. validation_failed Hval. }
  intros Hr.
  destruct (ids_loop_result fuel g (title o) (title d) step_size 0) as [Hd|[l Hl]];
    [congruence|].
  exists l. by rewrite <- depth_limited_search_titled, <- Hl.
Qed.

(** *** The recursion on a bounded stack *)

Lemma wf_node_hops g o n :
  wf_node g o n → hops g o (get_node_identifier n) (depth n).
Proof.
  induction 1 as [|p i c Hp IH He]; [constructor|].
  simpl. econstructor; eauto.
Qed.

Lemma hops_walk g o d j :
  hops g o d j → ∃ ids, path_from_to g o d ids ∧ edges_of ids = j.
Proof.
  induction 1 as [|x y c j Hh (ids & (Hhd & Hl & costs & Hw) & Hlen) He].
  - exists [o]. split; [|reflexivity].
    split; [reflexivity|]. split; [reflexivity|]. exists []. constructor.
  - exists (ids ++ [y]). split; [split; [|split]|].
    + destruct ids; [discriminate|exact Hhd].
    + apply last_snoc.
    + exists (costs ++ [c]). eapply walk_snoc; eauto.
    + unfold edges_of in *. rewrite length_app. simpl.
      apply walk_length in Hw. lia.
Qed.

Lemma dls_children_ext (f h : Node → result) cur adjacency b :
  Forall (λ e : string * Z,
            f (add_child_node cur e.1 e.2) = h (add_child_node cur e.1 e.2))
         adjacency →
  dls_children f cur adjacency b = dls_children h cur adjacency b.
Proof.
  intros HF. revert b. induction HF as [|e adj He _ IH]; intros b; [done|].
  simpl. rewrite He. destruct (h (add_child_node cur e.1 e.2)); simpl;
    rewrite ?IH; done.
Qed.

Lemma dls_children_refines (f h : Node → result) cur adjacency b :
  Forall (λ e : string * Z,
            f (add_child_node cur e.1 e.2) = RecursionError ∨
            f (add_child_node cur e.1 e.2) = h (add_child_node cur e.1 e.2))
         adjacency →
  dls_children f cur adjacency b = RecursionError ∨
  dls_children f cur adjacency b = dls_children h cur adjacency b.
Proof.
  intros HF. revert b. induction HF as [|e adj He _ IH]; intros b; [by right|].
  simpl. destruct He as [-> | ->]; [by left|].
  destruct (h (add_child_node cur e.1 e.2)); simpl; auto.
  case_bool_decide; simpl; auto.
Qed.

(** On the stack the recursion either raises the recursion error or
    gives what the recursion of the text gives. *)
Lemma recursive_dls_stack_refines g d depth_limit :
  ∀ stack n,
    recursive_dls_stack stack g n d depth_limit = RecursionError ∨
    recursive_dls_stack stack g n d depth_limit = recursive_dls g n d depth_limit.
Proof.
  induction depth_limit as [|L IH]; intros stack n; simpl;
    case_bool_decide; auto.
  destruct stack as [|stack]; [by left|].
  destruct (g !! get_node_identifier n) as [adjacency|]; [|by right].
  apply dls_children_refines. apply Forall_forall. intros e _. apply IH.
Qed.

(** A stack with a level for each unit of the limit is enough. *)
Lemma recursive_dls_stack_enough g d depth_limit :
  ∀ stack n,
    (depth_limit ≤ stack)%nat →
    recursive_dls_stack stack g n d depth_limit = recursive_dls g n d depth_limit.
Proof.
  induction depth_limit as [|L IH]; intros stack n Hle; simpl;
    case_bool_decide; auto.
  destruct stack as [|stack]; [lia|].
  destruct (g !! get_node_identifier n) as [adjacency|]; [|done].
  apply dls_children_ext. apply Forall_forall. intros e _. apply IH. lia.
Qed.

(** So is a stack with a level for every step of the longest walk from
    the origin, whatever the limit. *)
Lemma recursive_dls_stack_walks g o d depth_limit :
  ∀ stack n,
    wf_node g o n →
    (∀ w j, hops g o w j → (j < depth n + stack)%nat) →
    recursive_dls_stack stack g n d depth_limit = recursive_dls g n d depth_limit.
Proof.
  induction depth_limit as [|L IH]; intros stack n Hwf Hwalks; simpl;
    case_bool_decide; auto.
  destruct stack as [|stack].
  { pose proof (Hwalks _ _ (wf_node_hops g o n Hwf)). lia. }
  destruct (g !! get_node_identifier n) as [adjacency|] eqn:Hadj; [|done].
  apply dls_children_ext. apply Forall_forall. intros [i c] Hin. apply IH.
  - constructor; [done|]. by exists adjacency.
  - intros w j Hh. specialize (Hwalks w j Hh). simpl. lia.
Qed.

Lemma depth_limited_search_stack_refines stack g o d depth_limit :
  depth_limited_search_stack stack g o d depth_limit = RecursionError ∨
  depth_limited_search_stack stack g o d depth_limit
  = depth_limited_search g o d depth_limit.
Proof.
  unfold depth_limited_search_stack, depth_limited_search.
  destruct (validate g (title o) (title d)); [by right|].
  apply recursive_dls_stack_refines.
Qed.

Lemma depth_limited_search_stack_enough stack g o d depth_limit :
  (depth_limit ≤ stack)%nat →
  depth_limited_search_stack stack g o d depth_limit
  = depth_limited_search g o d depth_limit.
Proof.
  intros Hle. unfold depth_limited_search_stack, depth_limited_search.
  destruct (validate g (title o) (title d)); [done|].
  by apply recursive_dls_stack_enough.
Qed.

Lemma depth_limited_search_stack_walks stack g o d depth_limit :
  (∀ w ids, path_from_to g (title o) w ids → (edges_of ids < stack)%nat) →
  depth_limited_search_stack stack g o d depth_limit
  = depth_limited_search g o d depth_limit.
Proof.
  intros Hwalks. unfold depth_limited_search_stack, depth_limited_search.
  destruct (validate g (title o) (title d)); [done|].
  apply (recursive_dls_stack_walks g (title o)); [constructor|].
  intros w j Hh. apply hops_walk in Hh as (ids & Hp & <-). simpl. eauto.
Qed.

Lemma depth_limited_search_stack_titled stack g o d depth_limit :
  depth_limited_search_stack stack g (title o) (title d) depth_limit
  = depth_limited_search_stack stack g o d depth_limit.
Proof. unfold depth_limited_search_stack. by rewrite !title_idempotent. Qed.

(** The deepening loop cannot return while every limit gives [False],
    [None] or the recursion error. *)
Lemma ids_loop_stack_never stack g o d step_size fuel :
  ∀ start : nat,
    (∀ l, depth_limited_search_stack stack g o d l = PyFalse ∨
          depth_limited_search_stack stack g o d l = PyNone ∨
          depth_limited_search_stack stack g o d l = RecursionError) →
    ids_loop_stack stack fuel g o d start step_size = Diverge ∨
    ids_loop_stack stack fuel g o d start step_size = RecursionError.
Proof.
  induction fuel as [|fuel IH]; intros start Hall; [by left|].
  simpl. destruct (Hall start) as [-> |[-> | ->]]; simpl; auto.
Qed.

Lemma ids_loop_stack_diverges stack g o d step_size fuel :
  ∀ start : nat,
    (∀ l, depth_limited_search_stack stack g o d l = PyFalse ∨
          depth_limited_search_stack stack g o d l = PyNone) →
    ids_loop_stack stack fuel g o d start step_size = Diverge.
Proof.
  induction fuel as [|fuel IH]; intros start Hall; [reflexivity|].
  simpl. destruct (Hall start) as [->| ->]; simpl; by apply IH.
Qed.

(** ** Graphs used as concrete inputs *)

(** The three roads of the specification's example, loaded with
    [create_edge]. *)
Definition romania : gmap string (list (string * Z)) :=
  create_edge
    (create_edge (create_edge ∅ "arad" "zerind" 75) "zerind" "oradea" 71)
    "arad" "sibiu" 140.

(** Two isolated nodes. *)
Definition two_islands : gmap string (list (string * Z)) :=
  create_node (create_node ∅ "a") "b".


(** ** The properties *)

(** *** C1 *)

(** C1. Whenever [breadth_first_search], [depth_first_search],
    [depth_limited_search] or [iterative_deepening_search] returns a
    route, its identifiers lead from the origin to the destination along
    stored edges, and the cost reported with it is the sum of the stored
    costs of those edges, taken in order. *)
Theorem route_cost_is_sum_of_edge_costs
    (g : gmap string (list (string * Z))) (o d : string)
    (ids : list string) (cost : Z) :
  (∃ fuel, breadth_first_search fuel g o d = Route ids cost) ∨
  (∃ fuel, depth_first_search fuel g o d = Route ids cost) ∨
  (∃ depth_limit, depth_limited_search g o d depth_limit = Route ids cost) ∨
  (∃ fuel step_size, iterative_deepening_search fuel g o d step_size = Route ids cost) →
  head ids = Some (title o) ∧ last ids = Some (title d) ∧
  ∃ costs, walk g ids costs ∧ cost = sum_costs costs.
Proof.
  assert (Hdls : ∀ l, depth_limited_search g o d l = Route ids cost →
                      route_of g (title o) (title d) (Route ids cost)).
  { intros l Hl. apply depth_limited_search_route in Hl as (n & ? & ? & _ & ?).
    by exists n. }
  intros Hret.
  assert (Hroute : route_of g (title o) (title d) (Route ids cost)).
  { destruct Hret as [[fuel H]|[[fuel H]|[[l H]|(fuel & step_size & H)]]].
    - by eapply breadth_first_search_route.
    - by eapply depth_first_search_route.
    - by eapply Hdls.
    - apply iterative_deepening_search_route in H as [l H]. by eapply Hdls. }
  apply route_of_sound in Hroute as ((Hh & Hl & _) & costs & Hw & Hc).
  split_and!; [done..|]. by exists costs.
Qed.

Lemma route_cost_is_sum_of_edge_costs_witness :
  head ["Arad"; "Zerind"; "Oradea"] = Some (title "arad") ∧
  last ["Arad"; "Zerind"; "Oradea"] = Some (title "oradea") ∧
  ∃ costs, walk romania ["Arad"; "Zerind"; "Oradea"] costs ∧ 146 = sum_costs costs.
Proof.
  apply (route_cost_is_sum_of_edge_costs romania "arad" "oradea").
  left. exists 10%nat. vm_compute. reflexivity.
Defined.

(** *** C2 *)

(** ["A"] has the neighbours ["X"] and ["B"], in this order, and ["X"] is
    no key. *)
Definition detour : gmap string (list (string * Z)) :=
  create_node (create_arc (create_arc ∅ "a" "x" 1) "a" "b" 1) "b".

(** C2, as stated, fails: in [detour] the destination ["B"] is one edge
    away from the origin ["A"], both are keys, and
    [breadth_first_search] returns no route whatever the fuel: the visited
    lookup of the neighbour ["X"] raises [KeyError] first. *)
Lemma bfs_raises_before_reaching_destination :
  is_Some (detour !! "A") ∧ is_Some (detour !! "B") ∧
  path_from_to detour "A" "B" ["A"; "B"] ∧
  ∀ fuel, breadth_first_search fuel detour "a" "b" = Diverge ∨
          breadth_first_search fuel detour "a" "b" = KeyError "X".
Proof.
  split_and!.
  - vm_compute. eauto.
  - vm_compute. eauto.
  - split_and!; [done..|]. exists [1]. constructor; [|constructor].
    exists [("X", 1); ("B", 1)]. split; [by vm_compute|]. set_solver.
  - intros [|fuel]; [by left|right]. by vm_compute.
Qed.

(** ["A"] has the neighbours ["B"] and ["X"], in this order: the
    destination is generated before the neighbour that is no key. *)
Definition late_dangling : gmap string (list (string * Z)) :=
  create_node (create_arc (create_arc ∅ "a" "b" 1) "a" "x" 1) "b".

(** C2, amended. Whatever the graph, a route that
    [breadth_first_search] returns leads from the origin to the
    destination and has the fewest edges among all such sequences.  For
    distinct origin and destination that are keys and are connected
    (with fuel for one pass per stored adjacency entry), the search ends
    in one of two ways: with such a route, or with a [KeyError] for a
    stored neighbour that is no key; and it ends with the route when
    every neighbour identifier is a key. *)
Theorem bfs_returns_fewest_edges
    (g : gmap string (list (string * Z))) (o d : string) (fuel : nat) :
  (∀ ids cost,
     breadth_first_search fuel g o d = Route ids cost →
     path_from_to g (title o) (title d) ids ∧
     ∀ ids', path_from_to g (title o) (title d) ids' →
             (edges_of ids ≤ edges_of ids')%nat) ∧
  (title o ≠ title d →
   is_Some (g !! title o) →
   is_Some (g !! title d) →
   reachable g (title o) (title d) →
   (enough_fuel g ≤ fuel)%nat →
   ((∃ ids cost, breadth_first_search fuel g o d = Route ids cost) ∨
    (∃ k x c, breadth_first_search fuel g o d = KeyError k ∧
              edge g x k c ∧ g !! k = None)) ∧
   (closed g → ∃ ids cost, breadth_first_search fuel g o d = Route ids cost)).
Proof.
  assert (Hmin : ∀ ids cost,
            title o ≠ title d → is_Some (g !! title o) →
            bfs_loop fuel g (title d) (initial_visited (get_graph_nodes g))
              [Node_init (title o) None 0] = Route ids cost →
            path_from_to g (title o) (title d) ids ∧
            ∀ ids', path_from_to g (title o) (title d) ids' →
                    (edges_of ids ≤ edges_of ids')%nat).
  { intros ids cost Hne Ho Hr.
    destruct (bfs_loop_levels g (title o) (title d) Hne fuel _ _
                (bfs_inv_initial g (title o) (title d) Ho))
      as [Hdiv|[[k Hk]|[[Hmsg _]|(n & Hwf & Hid & Hmin & Hn)]]]; try congruence.
    rewrite Hn, retrace_path_route in Hr. injection Hr as <- <-. split.
    - rewrite <- Hid. by apply wf_node_reachable.
    - intros ids' (Hh' & Hl' & costs' & Hw').
      unfold edges_of at 1. rewrite retrace_length. simpl. rewrite Nat.sub_0_r.
      apply Hmin. by eapply walk_hops. }
  split.
  - intros ids cost Hr. unfold breadth_first_search in Hr.
    destruct (validate g (title o) (title d)) as [failure|] eqn:Hval.
    { subst failure. validation_failed Hval. }
    apply validate_None in Hval as (Hne & Ho & _). by eapply Hmin.
  - intros Hne Ho Hd (ids0 & Hh0 & Hl0 & costs0 & Hw0) Hfuel.
    unfold breadth_first_search.
    rewrite (proj2 (validate_None g (title o) (title d))) by done.
    pose proof (bfs_loop_outcome g (title o) (title d) fuel _ _
                  (frontier_ok_initial g (title o) Ho)) as Hout.
    pose proof (work_initial g (title o)) as Hwork.
    pose proof (bfs_loop_levels g (title o) (title d) Hne fuel _ _
                  (bfs_inv_initial g (title o) (title d) Ho)) as Hlev.
    assert (Hends :
      (∃ ids cost,
         bfs_loop fuel g (title d) (initial_visited (get_graph_nodes g))
           [Node_init (title o) None 0] = Route ids cost) ∨
      (∃ k x c,
         bfs_loop fuel g (title d) (initial_visited (get_graph_nodes g))
           [Node_init (title o) None 0] = KeyError k ∧
         edge g x k c ∧ g !! k = None)).
    { destruct Hout as [[_ ?]|[Hmsg|[(k & x & c & Hk & He & Hnone)|(n & _ & _ & Hn)]]].
      - lia.
      - destruct Hlev as [?|[[k ?]|[[_ Hno]|(n & _ & _ & _ & ?)]]]; try congruence.
        + destruct (Hno _ (walk_hops g ids0 costs0 _ _ Hw0 Hh0 Hl0)).
        + rewrite retrace_path_route in *. congruence.
      - right. by exists k, x, c.
      - left. rewrite Hn, retrace_path_route. eauto. }
    split; [exact Hends|]. intros Hcl.
    destruct Hends as [?|(k & x & c & _ & He & Hnone)]; [done|].
    destruct (closed_edge g x k c Hcl He) as [? ?]. congruence.
Qed.

Lemma closed_romania : closed romania.
Proof. apply (bool_decide_unpack _). vm_compute. exact I. Defined.

Lemma path_arad_oradea :
  path_from_to romania (title "arad") (title "oradea") ["Arad"; "Zerind"; "Oradea"].
Proof.
  split_and!; [reflexivity..|]. exists [75; 71].
  constructor; [|constructor; [|constructor]].
  - exists [("Zerind", 75); ("Sibiu", 140)]. split; [reflexivity|]. set_solver.
  - exists [("Arad", 75); ("Oradea", 71)]. split; [reflexivity|]. set_solver.
Defined.

Lemma bfs_returns_fewest_edges_witness :
  (∃ ids cost, breadth_first_search 20 romania "arad" "oradea" = Route ids cost) ∧
  (path_from_to late_dangling (title "a") (title "b") ["A"; "B"] ∧
   ∀ ids', path_from_to late_dangling (title "a") (title "b") ids' →
           (edges_of ["A"; "B"] ≤ edges_of ids')%nat).
Proof.
  split.
  - apply (proj2 (bfs_returns_fewest_edges romania "arad" "oradea" 20)).
    + vm_compute. discriminate.
    + vm_compute. eauto.
    + vm_compute. eauto.
    + exists ["Arad"; "Zerind"; "Oradea"]. exact path_arad_oradea.
    + vm_compute. lia.
    + exact closed_romania.
  - apply (proj1 (bfs_returns_fewest_edges late_dangling "a" "b" 5) _ 1).
    by vm_compute.
Defined.

(** The route with the fewest edges need not be the cheapest:
    [breadth_first_search] takes the direct road of cost 10 although the
    three roads through ["C"] and ["D"] cost 3. *)
Example bfs_route_is_not_cheapest :
  let g := create_arc (create_arc (create_arc (create_arc (create_node ∅ "b")
             "a" "b" 10) "a" "c" 1) "c" "d" 1) "d" "b" 1 in
  breadth_first_search 10 g "a" "b" = Route ["A"; "B"] 10 ∧
  walk g ["A"; "C"; "D"; "B"] [1; 1; 1].
Proof.
  split; [by vm_compute|].
  repeat (constructor; [eexists; split; [by vm_compute|set_solver]|]).
  constructor.
Qed.

(** *** C3 *)

(** A chain ["A"] to ["B"] that ends there, and an isolated ["C"]. *)
Definition dead_end : gmap string (list (string * Z)) :=
  create_node (create_node (create_arc ∅ "a" "b" 1) "b") "c".

(** C3. In [dead_end], searching for ["C"] from ["A"] with limit 2, the
    only recursive child (at ["B"], which has no neighbours) falls off the
    end of [recursive_dls] and reports [None] with no cutoff below it; the
    caller's [if not result] counts that as a cutoff and reports [False],
    the same value the limit test [depth_limit == 0] gives. *)
Theorem failure_of_all_children_reported_as_cutoff :
  let root := Node_init "A" None 0 in
  dead_end !! "A" = Some [("B", 1)] ∧
  recursive_dls dead_end (add_child_node root "B" 1) "C" 1 = PyNone ∧
  recursive_dls dead_end root "C" 2 = PyFalse ∧
  recursive_dls dead_end root "C" 0 = PyFalse.
Proof. by vm_compute. Qed.

(** *** C4 *)

(** The chain ["A"], ["B"], ["C"], ["D"], with a first neighbour ["X"]
    of ["A"] that is no key. *)
Definition early_gap : gmap string (list (string * Z)) :=
  create_node
    (create_arc (create_arc (create_arc (create_arc ∅ "a" "x" 1) "a" "b" 1)
       "b" "c" 1) "c" "d" 1)
    "d".

(** C4, as stated, fails in its second half: in [early_gap] the
    destination ["D"] is three edges from ["A"] and no sequence of fewer
    edges leads there, and [depth_limited_search] with limit 2 returns
    neither cutoff nor failure: the neighbour ["X"] is no key and the
    lookup made when it is expanded raises, on every call stack with room
    for the two nested levels. *)
Lemma dls_raises_instead_of_cutoff :
  is_Some (early_gap !! "A") ∧ is_Some (early_gap !! "D") ∧
  path_from_to early_gap "A" "D" ["A"; "B"; "C"; "D"] ∧
  (∀ ids, path_from_to early_gap "A" "D" ids → (2 < edges_of ids)%nat) ∧
  depth_limited_search early_gap "a" "d" 2 = KeyError "X" ∧
  ∀ stack, depth_limited_search_stack (2 + stack) early_gap "a" "d" 2 = KeyError "X".
Proof.
  assert (HA : ∀ y c, edge early_gap "A" y c → y = "X" ∨ y = "B").
  { intros y c (adj & Hadj & Hin). vm_compute in Hadj. injection Hadj as <-.
    apply elem_of_cons in Hin as [[= -> _]|Hin]; [by left|].
    apply list_elem_of_singleton in Hin as [= -> _]. by right. }
  assert (HX : ∀ y c, ¬ edge early_gap "X" y c).
  { intros y c (adj & Hadj & _). by vm_compute in Hadj. }
  assert (HB : ∀ y c, edge early_gap "B" y c → y = "C").
  { intros y c (adj & Hadj & Hin). vm_compute in Hadj. injection Hadj as <-.
    by apply list_elem_of_singleton in Hin as [= -> _]. }
  split_and!; [vm_compute; eauto..| | |by vm_compute|intros stack; by vm_compute].
  - split_and!; [done..|]. exists [1; 1; 1].
    repeat (constructor; [eexists; split; [by vm_compute|set_solver]|]).
    constructor.
  - intros ids (Hh & Hl & costs & Hw).
    inversion Hw as [x|x y l c cs He Hw']; subst; simpl in Hh, Hl; [congruence|].
    injection Hh as ->.
    inversion Hw' as [z|z w l' c' cs' He' Hw'']; subst; simpl in Hl.
    + injection Hl as ->. by destruct (HA _ _ He).
    + destruct l' as [|v l'']; [|unfold edges_of; simpl; lia].
      simpl in Hl. injection Hl as ->.
      destruct (HA _ _ He) as [-> | ->]; [by destruct (HX _ _ He')|].
      by specialize (HB _ _ He').
Qed.

(** A cycle between ["A"] and ["B"], and an isolated ["C"]: every
    neighbour is a key. *)
Definition two_cycle : gmap string (list (string * Z)) :=
  create_node (create_edge ∅ "a" "b" 1) "c".

(** On a stack with room for three levels, a limit of 4 lets the
    recursion go round the cycle until it has no room left. *)
Example recursion_error_on_cycle :
  depth_limited_search_stack 3 two_cycle "a" "c" 3 = PyFalse ∧
  depth_limited_search_stack 3 two_cycle "a" "c" 4 = RecursionError.
Proof. split; by vm_compute. Qed.

(** C4, amended. For distinct origin and destination that are keys of the
    graph, a route returned by [depth_limited_search] with limit [L]
    leads from the origin to the destination and has at most [L] edges.
    When every such sequence has more than [L] edges, no route is
    returned: the result is [False] or [None], or a [KeyError] for an
    identifier that is no key, or the recursion error.  It is [False] or
    [None] when every neighbour identifier is a key and the call stack
    has room for [L] nested levels. *)
Theorem dls_respects_depth_limit
    (g : gmap string (list (string * Z))) (o d : string) (L stack : nat) :
  title o ≠ title d →
  is_Some (g !! title o) →
  is_Some (g !! title d) →
  (∀ ids cost,
     depth_limited_search_stack stack g o d L = Route ids cost →
     path_from_to g (title o) (title d) ids ∧ (edges_of ids ≤ L)%nat) ∧
  ((∀ ids, path_from_to g (title o) (title d) ids → (L < edges_of ids)%nat) →
   (depth_limited_search_stack stack g o d L = PyFalse ∨
    depth_limited_search_stack stack g o d L = PyNone ∨
    (∃ k, g !! k = None ∧ depth_limited_search_stack stack g o d L = KeyError k) ∨
    depth_limited_search_stack stack g o d L = RecursionError) ∧
   (closed g → (L ≤ stack)%nat →
    depth_limited_search_stack stack g o d L = PyFalse ∨
    depth_limited_search_stack stack g o d L = PyNone)).
Proof.
  intros Hne Ho Hd.
  assert (Hbound : ∀ ids cost,
            depth_limited_search g o d L = Route ids cost →
            path_from_to g (title o) (title d) ids ∧ (edges_of ids ≤ L)%nat).
  { intros ids cost Hr.
    apply depth_limited_search_route in Hr as (n & Hwf & Hid & Hdepth & Hr).
    rewrite retrace_path_route in Hr. injection Hr as -> ->. split.
    - rewrite <- Hid. by apply wf_node_reachable.
    - unfold edges_of. rewrite retrace_length. simpl. lia. }
  split.
  { intros ids cost Hr.
    destruct (depth_limited_search_stack_refines stack g o d L) as [He|He];
      [congruence|]. apply (Hbound ids cost). congruence. }
  intros Hfar.
  assert (Hnoroute : ∀ n, depth_limited_search g o d L ≠ retrace_path n).
  { intros n Hr. rewrite retrace_path_route in Hr.
    destruct (Hbound _ _ Hr) as [Hp Hle]. specialize (Hfar _ Hp). lia. }
  assert (Htext :
    depth_limited_search g o d L = PyFalse ∨
    depth_limited_search g o d L = PyNone ∨
    ∃ k, g !! k = None ∧ depth_limited_search g o d L = KeyError k).
  { rewrite depth_limited_search_start in * by (by apply validate_None).
    destruct (recursive_dls_outcome g (title o) (title d) L _ (wf_root g (title o)))
      as [?|[?|[(m & _ & Hnone & Hr)|(m & _ & _ & _ & Hr)]]]; auto.
    - right; right. by exists (get_node_identifier m).
    - by destruct (Hnoroute m). }
  split.
  - destruct (depth_limited_search_stack_refines stack g o d L) as [He|He];
      [by do 3 right|].
    rewrite He. destruct Htext as [?|[?|?]]; auto.
  - intros Hcl Hle. rewrite depth_limited_search_stack_enough by done.
    rewrite depth_limited_search_start in * by (by apply validate_None).
    destruct (recursive_dls_closed g (title o) (title d) L _ Hcl Ho (wf_root g (title o)))
      as [?|[?|(m & _ & _ & _ & Hr)]]; auto.
    by destruct (Hnoroute m).
Qed.

Lemma dls_respects_depth_limit_witness :
  depth_limited_search_stack 8 romania "arad" "oradea" 1 = PyFalse ∨
  depth_limited_search_stack 8 romania "arad" "oradea" 1 = PyNone.
Proof.
  refine (proj2 (proj2 (dls_respects_depth_limit romania "arad" "oradea" 1 8 _ _ _) _)
            closed_romania _).
  - vm_compute. discriminate.
  - vm_compute. eauto.
  - vm_compute. eauto.
  - intros ids (Hh & Hl & costs & Hw).
    inversion Hw as [x|x y l c cs He Hw']; subst; simpl in Hh, Hl.
    + vm_compute in Hh, Hl. congruence.
    + destruct l as [|z l]; [|unfold edges_of; simpl; lia].
      simpl in Hl. injection Hl as ->. injection Hh as ->.
      destruct He as (adj & Hadj & Hin).
      vm_compute in Hadj. injection Hadj as <-.
      apply elem_of_cons in Hin as [Hin|Hin]; [by vm_compute in Hin|].
      apply list_elem_of_singleton in Hin. by vm_compute in Hin.
  - lia.
Defined.

(** *** C5 *)





(** *** C6 *)

(** C6, as stated, fails in its second half: [two_islands] is finite and
    has no edge at all, every call of [depth_limited_search] with a
    positive limit returns (it reports [None]), and still
    [iterative_deepening_search] never returns, however much fuel the
    deepening loop is given; the recursion never nests, so the same holds
    on every call stack with room for one level. *)
Lemma ids_diverges_on_acyclic_graph :
  map_Forall (λ _ adjacency, adjacency = []) two_islands ∧
  (∀ l, depth_limited_search two_islands "a" "b" (S l) = PyNone) ∧
  (∀ fuel, iterative_deepening_search fuel two_islands "a" "b" 1 = Diverge) ∧
  (∀ stack l, depth_limited_search_stack (S stack) two_islands "a" "b" (S l) = PyNone) ∧
  ∀ stack fuel,
    iterative_deepening_search_stack (S stack) fuel two_islands "a" "b" 1 = Diverge.
Proof.
  split_and!.
  - apply (bool_decide_unpack _). by vm_compute.
  - intros l. by vm_compute.
  - intros fuel. unfold iterative_deepening_search.
    replace (validate two_islands (title "a") (title "b")) with (@None result)
      by (by vm_compute).
    apply ids_loop_diverges. intros [|l]; [left|right]; by vm_compute.
  - intros stack l. by vm_compute.
  - intros stack fuel. unfold iterative_deepening_search_stack.
    replace (validate two_islands (title "a") (title "b")) with (@None result)
      by (by vm_compute).
    apply ids_loop_stack_diverges. intros [|l]; [left|right]; by vm_compute.
Qed.

(** C6, amended. On a graph all of whose neighbour identifiers are keys,
    cyclic or not, for distinct origin and destination that are keys with
    the destination unreachable from the origin,
    [iterative_deepening_search] never returns: whatever the step size,
    no failure signal ends the deepening loop, which is either still
    running when the fuel is used up or is ended by the recursion error
    of a round that nests too deeply.  When every walk from the origin
    fits the call stack (so on acyclic graphs of moderate depth), every
    round returns [False] or [None] and the loop runs for ever. *)
Theorem ids_never_returns_when_unreachable
    (g : gmap string (list (string * Z))) (o d : string) (stack : nat) :
  closed g →
  title o ≠ title d →
  is_Some (g !! title o) →
  is_Some (g !! title d) →
  ¬ reachable g (title o) (title d) →
  (∀ fuel step_size,
     iterative_deepening_search_stack stack fuel g o d step_size = Diverge ∨
     iterative_deepening_search_stack stack fuel g o d step_size = RecursionError) ∧
  ((∀ w ids, path_from_to g (title o) w ids → (edges_of ids < stack)%nat) →
   (∀ L, depth_limited_search_stack stack g o d L = PyFalse ∨
         depth_limited_search_stack stack g o d L = PyNone) ∧
   ∀ fuel step_size,
     iterative_deepening_search_stack stack fuel g o d step_size = Diverge).
Proof.
  intros Hcl Hne Ho Hd Hun.
  assert (Hval : validate g (title o) (title d) = None) by (by apply validate_None).
  assert (Hall : ∀ L, depth_limited_search g o d L = PyFalse ∨
                      depth_limited_search g o d L = PyNone).
  { intros L. rewrite depth_limited_search_start by done.
    destruct (recursive_dls_closed g (title o) (title d) L _ Hcl Ho (wf_root g (title o)))
      as [?|[?|(m & Hwf & Hid & _)]]; auto.
    destruct Hun. exists (retrace_from m []). rewrite <- Hid.
    by apply wf_node_reachable. }
  split.
  - intros fuel step_size. unfold iterative_deepening_search_stack. rewrite Hval.
    apply ids_loop_stack_never. intros l.
    rewrite depth_limited_search_stack_titled.
    destruct (depth_limited_search_stack_refines stack g o d l) as [-> | ->]; auto.
    destruct (Hall l); auto.
  - intros Hwalks.
    assert (Hall' : ∀ L, depth_limited_search_stack stack g o d L = PyFalse ∨
                         depth_limited_search_stack stack g o d L = PyNone).
    { intros L. rewrite depth_limited_search_stack_walks by done. apply Hall. }
    split; [exact Hall'|]. intros fuel step_size.
    unfold iterative_deepening_search_stack. rewrite Hval.
    apply ids_loop_stack_diverges. intros l.
    rewrite depth_limited_search_stack_titled. apply Hall'.
Qed.

Lemma no_path_between_islands : ¬ reachable two_islands (title "a") (title "b").
Proof.
  intros (ids & Hh & Hl & costs & Hw).
  inversion Hw as [x|x y l c cs He Hw']; subst; simpl in Hh, Hl.
  - vm_compute in Hh, Hl. congruence.
  - injection Hh as ->. destruct He as (adj & Hadj & Hin).
    vm_compute in Hadj. injection Hadj as <-. by apply elem_of_nil in Hin.
Defined.

Lemma closed_two_islands : closed two_islands.
Proof. apply (bool_decide_unpack _). vm_compute. exact I. Defined.

Lemma dead_end_edges x y c :
  edge dead_end x y c → x = "A" ∧ y = "B".
Proof.
  intros (adj & Hadj & Hin).
  assert (Hall : map_Forall
            (λ (k : string) (adjacency : list (string * Z)),
               Forall (λ e : string * Z, k = "A" ∧ e.1 = "B") adjacency)
            dead_end)
    by (apply (bool_decide_unpack _); vm_compute; exact I).
  pose proof (map_Forall_lookup_1 _ _ _ _ Hall Hadj) as HF. simpl in HF.
  rewrite Forall_forall in HF. exact (HF _ Hin).
Defined.

Lemma walks_from_dead_end_origin w ids :
  path_from_to dead_end (title "a") w ids → (edges_of ids < 2)%nat.
Proof.
  intros (_ & _ & costs & Hw).
  inversion Hw as [x|x y l c cs He Hw']; subst; [unfold edges_of; simpl; lia|].
  apply dead_end_edges in He as [-> ->].
  inversion Hw' as [z|z v l' c' cs' He' Hw'']; subst; [unfold edges_of; simpl; lia|].
  by apply dead_end_edges in He' as [? _].
Defined.

Lemma no_path_in_dead_end : ¬ reachable dead_end (title "a") (title "c").
Proof.
  intros (ids & Hh & Hl & costs & Hw).
  inversion Hw as [x|x y l c cs He Hw']; subst; simpl in Hh, Hl.
  - vm_compute in Hh, Hl. congruence.
  - apply dead_end_edges in He as [-> ->].
    inversion Hw' as [z|z v l' c' cs' He' Hw'']; subst.
    + vm_compute in Hl. congruence.
    + by apply dead_end_edges in He' as [? _].
Defined.

Lemma closed_dead_end : closed dead_end.
Proof. apply (bool_decide_unpack _). vm_compute. exact I. Defined.

Lemma ids_never_returns_when_unreachable_witness :
  (∀ L, depth_limited_search_stack 2 dead_end "a" "c" L = PyFalse ∨
        depth_limited_search_stack 2 dead_end "a" "c" L = PyNone) ∧
  ∀ fuel step_size,
    iterative_deepening_search_stack 2 fuel dead_end "a" "c" step_size = Diverge.
Proof.
  apply (ids_never_returns_when_unreachable dead_end "a" "c" 2).
  - exact closed_dead_end.
  - vm_compute. discriminate.
  - vm_compute. eauto.
  - vm_compute. eauto.
  - exact no_path_in_dead_end.
  - exact walks_from_dead_end_origin.
Defined.

(** On a cycle the deepening loop does end, with the recursion error and
    without a result: here in its fifth round, on a stack with room for
    three levels. *)
Example ids_ends_with_recursion_error_on_cycle :
  iterative_deepening_search_stack 3 4 two_cycle "a" "c" 1 = Diverge ∧
  ∀ fuel, iterative_deepening_search_stack 3 (5 + fuel) two_cycle "a" "c" 1
          = RecursionError.
Proof. split; [by vm_compute|]. intros fuel. by vm_compute. Qed.

(** *** C7 *)

(** C7. Each of the four functions puts origin and destination in title
    case and runs the same three checks, in this order, before any loop
    or recursion (the fuel and the depth limit play no part): equal
    identifiers give "Source and Destination cannot be same."; otherwise
    an origin that is no key gives "Unable to find 'Source City' in the
    map."; otherwise a destination that is no key gives "Unable to find
    'Destination City' in the map.".  Each is a returned string, not a
    raised error. *)
Theorem validation_precedes_every_search
    (g : gmap string (list (string * Z))) (o d : string)
    (fuel depth_limit step_size : nat) :
  let results :=
    [ breadth_first_search fuel g o d;
      depth_first_search fuel g o d;
      depth_limited_search g o d depth_limit;
      iterative_deepening_search fuel g o d step_size ] in
  (title o = title d →
   Forall (λ r, r = Msg "Source and Destination cannot be same.") results) ∧
  (title o ≠ title d → g !! title o = None →
   Forall (λ r, r = Msg "Unable to find 'Source City' in the map.") results) ∧
  (title o ≠ title d → is_Some (g !! title o) → g !! title d = None →
   Forall (λ r, r = Msg "Unable to find 'Destination City' in the map.") results).
Proof.
  simpl.
  unfold breadth_first_search, depth_first_search, depth_limited_search,
    iterative_deepening_search.
  split_and!.
  - intros Heq. unfold validate. rewrite bool_decide_eq_true_2 by done.
    repeat constructor.
  - intros Hne Ho. unfold validate. rewrite bool_decide_eq_false_2 by done.
    rewrite (bool_decide_eq_false_2 (title o ∈ get_graph_nodes g)).
    + repeat constructor.
    + rewrite elem_of_get_graph_nodes, Ho. by intros [? ?].
  - intros Hne Ho Hd. unfold validate. rewrite bool_decide_eq_false_2 by done.
    rewrite (bool_decide_eq_true_2 (title o ∈ get_graph_nodes g))
      by (by apply elem_of_get_graph_nodes).
    rewrite (bool_decide_eq_false_2 (title d ∈ get_graph_nodes g)).
    + repeat constructor.
    + rewrite elem_of_get_graph_nodes, Hd. by intros [? ?].
Qed.

Lemma validation_precedes_every_search_witness :
  Forall (λ r, r = Msg "Source and Destination cannot be same.")
    [ breadth_first_search 0 romania "ARAD" "arad";
      depth_first_search 0 romania "ARAD" "arad";
      depth_limited_search romania "ARAD" "arad" 0;
      iterative_deepening_search 0 romania "ARAD" "arad" 1 ] ∧
  Forall (λ r, r = Msg "Unable to find 'Source City' in the map.")
    [ breadth_first_search 0 romania "paris" "arad";
      depth_first_search 0 romania "paris" "arad";
      depth_limited_search romania "paris" "arad" 0;
      iterative_deepening_search 0 romania "paris" "arad" 1 ] ∧
  Forall (λ r, r = Msg "Unable to find 'Destination City' in the map.")
    [ breadth_first_search 0 romania "arad" "paris";
      depth_first_search 0 romania "arad" "paris";
      depth_limited_search romania "arad" "paris" 0;
      iterative_deepening_search 0 romania "arad" "paris" 1 ].
Proof.
  split_and!.
  - apply (validation_precedes_every_search romania "ARAD" "arad" 0 0 1).
    by vm_compute.
  - apply (validation_precedes_every_search romania "paris" "arad" 0 0 1).
    + vm_compute. discriminate.
    + by vm_compute.
  - apply (validation_precedes_every_search romania "arad" "paris" 0 0 1).
    + vm_compute. discriminate.
    + vm_compute. eauto.
    + by vm_compute.
Defined.

(** *** C8 *)

(** ["A"] leads to ["B"] and ["C"], and ["B"] leads to ["C"] again. *)
Definition triangle : gmap string (list (string * Z)) :=
  create_node
    (create_node
       (create_arc (create_arc (create_arc ∅ "a" "b" 1) "a" "c" 1) "b" "c" 1)
       "c")
    "d".

(** C8. Searching [triangle] from ["A"] for ["D"], the second pass of the
    loop expands ["B"] while the frontier holds the node of ["C"] made
    from ["A"].  The test [child not in [...identifiers...]] compares the
    [Node] object with strings and is true, ["C"] is not marked visited,
    and a second node with the identifier ["C"] is appended: after two
    passes the queue holds two nodes named ["C"]. *)
Theorem frontier_test_admits_queued_identifier :
  let root := Node_init "A" None 0 in
  let b := add_child_node root "B" 1 in
  let c := add_child_node root "C" 1 in
  let visited :=
    <["B" := true]> (<["A" := true]> (initial_visited (get_graph_nodes triangle))) in
  "C" ∈ get_node_identifier <$> [c] ∧
  visited !! "C" = Some false ∧
  expand_children visited "D" b [c] [("C", 1)] = inr [c; add_child_node b "C" 1] ∧
  ∀ fuel,
    bfs_loop (S (S fuel)) triangle "D"
      (initial_visited (get_graph_nodes triangle)) [root]
    = bfs_loop fuel triangle "D" visited [c; add_child_node b "C" 1].
Proof.
  split_and!.
  - set_solver.
  - by vm_compute.
  - by vm_compute.
  - intros fuel. by vm_compute.
Qed.

(** *** C9 *)





(** *** C10 *)

(** C10, as stated, fails: with the frontier exhausted the two frontier
    searches return the string "Path not found", which has no final full
    stop, and a failed [depth_limited_search] returns [None], which is no
    string at all (on every call stack with room for one level). *)
Lemma not_found_is_not_the_stated_string :
  breadth_first_search 5 two_islands "a" "b" = Msg "Path not found" ∧
  depth_first_search 5 two_islands "a" "b" = Msg "Path not found" ∧
  route_string (breadth_first_search 5 two_islands "a" "b") ≠ Some "Path not found." ∧
  route_string (depth_first_search 5 two_islands "a" "b") ≠ Some "Path not found." ∧
  depth_limited_search two_islands "a" "b" 3 = PyNone ∧
  route_string (depth_limited_search two_islands "a" "b" 3) = None ∧
  ∀ stack, depth_limited_search_stack (S stack) two_islands "a" "b" 3 = PyNone.
Proof. split_and!; by vm_compute. Qed.

(** C10, amended. On a graph all of whose neighbour identifiers are keys,
    for distinct origin and destination that are keys with the
    destination unreachable, [breadth_first_search] and
    [depth_first_search] end with an empty frontier and return the string
    "Path not found" (no full stop).  [depth_limited_search] returns no
    string: it returns [False] or [None] when the call stack has room for
    as many nested levels as the limit, and otherwise may end with the
    recursion error. *)
Theorem unreachable_destination_is_reported
    (g : gmap string (list (string * Z))) (o d : string) (fuel stack : nat) :
  closed g →
  title o ≠ title d →
  is_Some (g !! title o) →
  is_Some (g !! title d) →
  ¬ reachable g (title o) (title d) →
  (enough_fuel g ≤ fuel)%nat →
  breadth_first_search fuel g o d = Msg "Path not found" ∧
  depth_first_search fuel g o d = Msg "Path not found" ∧
  (∀ L, depth_limited_search_stack stack g o d L = PyFalse ∨
        depth_limited_search_stack stack g o d L = PyNone ∨
        depth_limited_search_stack stack g o d L = RecursionError) ∧
  (∀ L, (L ≤ stack)%nat →
        depth_limited_search_stack stack g o d L = PyFalse ∨
        depth_limited_search_stack stack g o d L = PyNone).
Proof.
  intros Hcl Hne Ho Hd Hun Hfuel.
  assert (Hval : validate g (title o) (title d) = None) by (by apply validate_None).
  pose proof (work_initial g (title o)) as Hwork.
  assert (Hloop : ∀ r,
            loop_outcome g (title o) (title d)
              (work g (initial_visited (get_graph_nodes g)) [Node_init (title o) None 0])
              fuel r →
            r = Msg "Path not found").
  { intros r [[_ ?]|[?|[(k & x & c & _ & He & Hnone)|(n & Hwf & Hid & _)]]];
      [lia|done| |].
    - destruct (closed_edge g x k c Hcl He) as [? ?]. congruence.
    - destruct Hun. exists (retrace_from n []). rewrite <- Hid.
      by apply wf_node_reachable. }
  assert (Hall : ∀ L, depth_limited_search g o d L = PyFalse ∨
                      depth_limited_search g o d L = PyNone).
  { intros L. rewrite depth_limited_search_start by done.
    destruct (recursive_dls_closed g (title o) (title d) L _ Hcl Ho (wf_root g (title o)))
      as [?|[?|(m & Hwf & Hid & _)]]; auto.
    destruct Hun. exists (retrace_from m []). rewrite <- Hid.
    by apply wf_node_reachable. }
  unfold breadth_first_search, depth_first_search. rewrite Hval. split_and!.
  - apply Hloop, bfs_loop_outcome. by apply frontier_ok_initial.
  - apply Hloop, dfs_loop_outcome. by apply frontier_ok_initial.
  - intros L.
    destruct (depth_limited_search_stack_refines stack g o d L) as [-> | ->]; auto.
    destruct (Hall L); auto.
  - intros L Hle. rewrite depth_limited_search_stack_enough by done. apply Hall.
Qed.

Lemma unreachable_destination_is_reported_witness :
  breadth_first_search 1 two_islands "a" "b" = Msg "Path not found" ∧
  depth_first_search 1 two_islands "a" "b" = Msg "Path not found" ∧
  (∀ L, depth_limited_search_stack 4 two_islands "a" "b" L = PyFalse ∨
        depth_limited_search_stack 4 two_islands "a" "b" L = PyNone ∨
        depth_limited_search_stack 4 two_islands "a" "b" L = RecursionError) ∧
  (∀ L, (L ≤ 4)%nat →
        depth_limited_search_stack 4 two_islands "a" "b" L = PyFalse ∨
        depth_limited_search_stack 4 two_islands "a" "b" L = PyNone).
Proof.
  apply (unreachable_destination_is_reported two_islands "a" "b" 1 4).
  - exact closed_two_islands.
  - vm_compute. discriminate.
  - vm_compute. eauto.
  - vm_compute. eauto.
  - exact no_path_between_islands.
  - vm_compute. lia.
Defined.

(** * Further properties of the code *)

(** ** The [Graph] class *)

(** A string is never found in a list of adjacency tuples. *)
Lemma py_in_tuples_str s l : py_in_tuples (OStr s) l = false.
Proof. induction l as [|e l IH]; [reflexivity|exact IH]. Qed.

Lemma create_node_lookup (g : gmap string (list (string * Z))) n k :
  create_node g n !! k
  = if decide (k = title n) then Some (default [] (g !! k)) else g !! k.
Proof.
  unfold create_node. destruct (g !! title n) as [adj|] eqn:Hn.
  - case_decide as Hk; [|done]. subst k. by rewrite Hn.
  - rewrite lookup_insert. case_decide as Hk.
    + subst k. rewrite decide_True by done. by rewrite Hn.
    + by rewrite decide_False by done.
Qed.

Lemma create_arc_lookup (g : gmap string (list (string * Z))) o d c k :
  create_arc g o d c !! k
  = if decide (k = title o)
    then Some (default [] (g !! k) ++ [(title d, c)])
    else g !! k.
Proof.
  unfold create_arc.
  set (d1 := match g !! title o with
             | Some _ => g
             | None => create_node g (title o)
             end).
  assert (Hd1 : ∀ j, d1 !! j = if decide (j = title o)
                               then Some (default [] (g !! j)) else g !! j).
  { intros j. unfold d1. destruct (g !! title o) as [adj|] eqn:Ho.
    - case_decide as Hj; [|done]. subst j. by rewrite Ho.
    - by rewrite create_node_lookup, title_idempotent. }
  rewrite (Hd1 (title o)), decide_True by done.
  rewrite py_in_tuples_str. simpl. rewrite lookup_insert.
  case_decide as Hk.
  - subst k. by rewrite decide_True by done.
  - rewrite decide_False by done. rewrite Hd1. by rewrite decide_False by done.
Qed.

Lemma edge_lookup (g g' : gmap string (list (string * Z))) x :
  g' !! x = g !! x → ∀ y c, edge g' x y c ↔ edge g x y c.
Proof. intros Heq y c. unfold edge. by rewrite Heq. Qed.

Lemma create_node_keys (g : gmap string (list (string * Z))) n k :
  is_Some (create_node g n !! k) ↔ is_Some (g !! k) ∨ k = title n.
Proof.
  rewrite create_node_lookup. case_decide as Hk.
  - split; [by right|eauto].
  - split; [by left|]. by intros [?|?].
Qed.

Lemma create_node_edges (g : gmap string (list (string * Z))) n x y c :
  edge (create_node g n) x y c ↔ edge g x y c.
Proof.
  unfold edge. rewrite create_node_lookup. case_decide as Hk; [|done].
  destruct (g !! x) as [adj|]; simpl; [done|]. split.
  - intros (a & [= <-] & Hin). by apply elem_of_nil in Hin.
  - by intros (a & ? & _).
Qed.

Lemma create_arc_keys (g : gmap string (list (string * Z))) o d c k :
  is_Some (create_arc g o d c !! k) ↔ is_Some (g !! k) ∨ k = title o.
Proof.
  rewrite create_arc_lookup. case_decide as Hk.
  - split; [by right|eauto].
  - split; [by left|]. by intros [?|?].
Qed.

Lemma create_arc_edges (g : gmap string (list (string * Z))) o d c x y c' :
  edge (create_arc g o d c) x y c' ↔
  edge g x y c' ∨ (x = title o ∧ y = title d ∧ c' = c).
Proof.
  unfold edge. rewrite create_arc_lookup. case_decide as Hk.
  - subst x. split.
    + intros (a & [= <-] & Hin). apply elem_of_app in Hin as [Hin|Hin].
      * left. destruct (g !! title o) as [adj|]; simpl in Hin;
          [by exists adj|by apply elem_of_nil in Hin].
      * apply list_elem_of_singleton in Hin as [= -> ->]. by right.
    + intros [(a & Ha & Hin)|(_ & -> & ->)]; eexists; (split; [done|]).
      * rewrite Ha. simpl. apply elem_of_app. by left.
      * apply elem_of_app. right. by apply list_elem_of_singleton.
  - split; [by left|]. by intros [?|(? & _)].
Qed.

(** The dictionary [create_edge] hands to its two [create_arc] calls: the
    nodes it may have made add keys and no arcs. *)
Lemma create_edge_nodes (g : gmap string (list (string * Z))) o d :
  let d1 := match g !! o with Some _ => g | None => create_node g o end in
  let d2 := match d1 !! d with Some _ => d1 | None => create_node d1 d end in
  (∀ k, is_Some (g !! k) → is_Some (d2 !! k)) ∧
  (∀ k, is_Some (d2 !! k) → is_Some (g !! k) ∨ k = title o ∨ k = title d) ∧
  (∀ x y c, edge d2 x y c ↔ edge g x y c).
Proof.
  intros d1 d2.
  assert (H1 : (∀ k, is_Some (g !! k) → is_Some (d1 !! k)) ∧
               (∀ k, is_Some (d1 !! k) → is_Some (g !! k) ∨ k = title o) ∧
               (∀ x y c, edge d1 x y c ↔ edge g x y c)).
  { unfold d1. destruct (g !! o); [by auto|]. split_and!.
    - intros k Hk. apply create_node_keys. by left.
    - intros k Hk. by apply create_node_keys in Hk.
    - intros x y c. apply create_node_edges. }
  destruct H1 as (Ha & Hb & Hc). unfold d2. destruct (d1 !! d).
  - split_and!; [done| |done]. intros k Hk. destruct (Hb k Hk); auto.
  - split_and!.
    + intros k Hk. apply create_node_keys. left. by apply Ha.
    + intros k Hk. apply create_node_keys in Hk as [Hk| ->]; [|by auto].
      destruct (Hb k Hk); auto.
    + intros x y c. by rewrite create_node_edges.
Qed.

Lemma create_edge_keys (g : gmap string (list (string * Z))) o d c k :
  is_Some (create_edge g o d c !! k) ↔
  is_Some (g !! k) ∨ k = title o ∨ k = title d.
Proof.
  unfold create_edge. destruct (create_edge_nodes g o d) as (Ha & Hb & _).
  rewrite !create_arc_keys. split.
  - intros [[Hk| ->]| ->]; auto.
  - intros [Hk|[-> | ->]]; auto.
Qed.

Lemma create_edge_edges (g : gmap string (list (string * Z))) o d c x y c' :
  edge (create_edge g o d c) x y c' ↔
  edge g x y c' ∨
  (x = title o ∧ y = title d ∧ c' = c) ∨
  (x = title d ∧ y = title o ∧ c' = c).
Proof.
  unfold create_edge. destruct (create_edge_nodes g o d) as (_ & _ & Hc).
  rewrite !create_arc_edges, Hc. tauto.
Qed.

Lemma closed_edges (g : gmap string (list (string * Z))) :
  closed g ↔ ∀ x y c, edge g x y c → is_Some (g !! y).
Proof.
  split; [intros Hcl x y c; by apply closed_edge|].
  intros H. apply map_Forall_lookup. intros x adj Hx.
  apply Forall_forall. intros [y c] Hin. apply (H x y c). by exists adj.
Qed.

(** Keys and neighbour identifiers are in title case. *)
Definition canonical (g : gmap string (list (string * Z))) : Prop :=
  (∀ k, is_Some (g !! k) → title k = k) ∧
  (∀ x y c, edge g x y c → title y = y).

(** X1. [create_node] makes the title-cased identifier a key with an
    empty adjacency list when it is none yet, adds no other key, and
    leaves every stored adjacency list as it is; a second call with the
    same identifier changes nothing. *)
Theorem create_node_keeps_stored_lists
    (g : gmap string (list (string * Z))) (n : string) :
  (∀ k, is_Some (create_node g n !! k) ↔ is_Some (g !! k) ∨ k = title n) ∧
  (∀ k adjacency, g !! k = Some adjacency →
                  create_node g n !! k = Some adjacency) ∧
  (g !! title n = None → create_node g n !! title n = Some []) ∧
  create_node (create_node g n) n = create_node g n.
Proof.
  split_and!.
  - intros k. apply create_node_keys.
  - intros k adjacency Hk. rewrite create_node_lookup, Hk. by case_decide.
  - intros Hn. rewrite create_node_lookup, decide_True by done. by rewrite Hn.
  - apply map_eq. intros k. rewrite !create_node_lookup.
    case_decide; [|done]. by destruct (g !! k).
Qed.

Lemma create_node_keeps_stored_lists_witness :
  create_node romania "paris" !! title "paris" = Some [] ∧
  create_node romania "ARAD" !! "Arad" = Some [("Zerind", 75); ("Sibiu", 140)].
Proof.
  split.
  - apply (create_node_keeps_stored_lists romania "paris"). by vm_compute.
  - apply (create_node_keeps_stored_lists romania "ARAD"). by vm_compute.
Defined.

(** X2. [create_arc] always appends: its test compares the destination
    string with the stored tuples and never finds it, so the list under
    the title-cased origin becomes the old list (empty when the origin
    was no key) followed by the new arc, also when that very arc is
    already stored; a repeated call stores it twice.  No other key
    changes. *)
Theorem create_arc_always_appends
    (g : gmap string (list (string * Z))) (o d : string) (c : Z) :
  create_arc g o d c !! title o
  = Some (default [] (g !! title o) ++ [(title d, c)]) ∧
  (∀ k, k ≠ title o → create_arc g o d c !! k = g !! k) ∧
  create_arc (create_arc g o d c) o d c !! title o
  = Some (default [] (g !! title o) ++ [(title d, c); (title d, c)]).
Proof.
  split_and!.
  - by rewrite create_arc_lookup, decide_True.
  - intros k Hk. by rewrite create_arc_lookup, decide_False.
  - rewrite !create_arc_lookup, !decide_True by done. simpl.
    by rewrite <- app_assoc.
Qed.

(** X3. [create_arc] makes a key of the origin only: a destination that
    was no key (and differs from the origin) is still none afterwards,
    although it is now stored as a neighbour, so the dictionary is not
    closed. *)
Theorem create_arc_leaves_destination_out
    (g : gmap string (list (string * Z))) (o d : string) (c : Z) :
  g !! title d = None →
  title d ≠ title o →
  create_arc g o d c !! title d = None ∧
  edge (create_arc g o d c) (title o) (title d) c ∧
  ¬ closed (create_arc g o d c).
Proof.
  intros Hd Hne.
  assert (Hnone : create_arc g o d c !! title d = None)
    by (by rewrite create_arc_lookup, decide_False).
  assert (He : edge (create_arc g o d c) (title o) (title d) c)
    by (apply create_arc_edges; by right).
  split_and!; [done..|]. intros Hcl.
  destruct (closed_edge _ _ _ _ Hcl He) as [? ?]. congruence.
Qed.

Lemma create_arc_leaves_destination_out_witness :
  create_arc ∅ "a" "x" 1 !! title "x" = None ∧
  edge (create_arc ∅ "a" "x" 1) (title "a") (title "x") 1 ∧
  ¬ closed (create_arc ∅ "a" "x" 1).
Proof.
  apply (create_arc_leaves_destination_out ∅ "a" "x" 1).
  - by vm_compute.
  - vm_compute. discriminate.
Defined.

(** X4. After [create_edge] the keys are the old keys and the two
    title-cased endpoints, and the stored arcs are the old arcs, the arc
    from origin to destination and the arc back, both with the given
    cost: nothing stored before is lost. *)
Theorem create_edge_stores_both_directions
    (g : gmap string (list (string * Z))) (o d : string) (c : Z) :
  (∀ k, is_Some (create_edge g o d c !! k) ↔
        is_Some (g !! k) ∨ k = title o ∨ k = title d) ∧
  (∀ x y c', edge (create_edge g o d c) x y c' ↔
             edge g x y c' ∨
             (x = title o ∧ y = title d ∧ c' = c) ∨
             (x = title d ∧ y = title o ∧ c' = c)).
Proof.
  split; [intros k; apply create_edge_keys|intros x y c'; apply create_edge_edges].
Qed.

Lemma create_edge_closed (g : gmap string (list (string * Z))) o d c :
  closed g → closed (create_edge g o d c).
Proof.
  rewrite !closed_edges. intros Hcl x y c' He.
  apply create_edge_keys.
  apply create_edge_edges in He as [He|[(_ & -> & _)|(_ & -> & _)]]; eauto.
Qed.

(** X5. A dictionary in which every neighbour is a key keeps this
    property under any sequence of [create_edge] calls; in particular
    every graph loaded from the empty dictionary with [create_edge] alone,
    as the main program does, has it. *)
Theorem create_edge_keeps_closed
    (g : gmap string (list (string * Z)))
    (routes : list (string * string * Z)) :
  closed g →
  closed (foldl (λ graph_dict route,
                   create_edge graph_dict route.1.1 route.1.2 route.2)
                g routes).
Proof.
  revert g. induction routes as [|[[o d] c] routes IH]; intros g Hcl; [done|].
  simpl. apply IH. by apply create_edge_closed.
Qed.

Lemma closed_empty : closed (∅ : gmap string (list (string * Z))).
Proof. apply map_Forall_empty. Defined.

Lemma create_edge_keeps_closed_witness :
  closed (foldl (λ graph_dict route,
                   create_edge graph_dict route.1.1 route.1.2 route.2)
                ∅ [("arad", "zerind", 75); ("zerind", "oradea", 71)]).
Proof. apply (create_edge_keeps_closed ∅). exact closed_empty. Defined.

(** X6. The three operations of [Graph] store identifiers in title case
    only: if all keys and neighbour identifiers of a dictionary are in
    title case, they still are after [create_node], [create_arc] and
    [create_edge], whatever the case of the arguments. *)
Theorem graph_operations_keep_title_case
    (g : gmap string (list (string * Z))) (n o d : string) (c : Z) :
  canonical g →
  canonical (create_node g n) ∧
  canonical (create_arc g o d c) ∧
  canonical (create_edge g o d c).
Proof.
  intros [Hk He]. split_and!; split.
  - intros k [?| ->]%create_node_keys; [auto|apply title_idempotent].
  - intros x y c' H%create_node_edges. eauto.
  - intros k [?| ->]%create_arc_keys; [auto|apply title_idempotent].
  - intros x y c' [?|(_ & -> & _)]%create_arc_edges;
      [eauto|apply title_idempotent].
  - intros k [?|[-> | ->]]%create_edge_keys; [auto|apply title_idempotent..].
  - intros x y c' [?|[(_ & -> & _)|(_ & -> & _)]]%create_edge_edges;
      [eauto|apply title_idempotent..].
Qed.

Lemma canonical_empty : canonical (∅ : gmap string (list (string * Z))).
Proof.
  split.
  - intros k [? Hk]. by rewrite lookup_empty in Hk.
  - intros x y c (adj & Hx & _). by rewrite lookup_empty in Hx.
Defined.

Lemma graph_operations_keep_title_case_witness :
  canonical (create_node ∅ "arad") ∧
  canonical (create_arc ∅ "arad" "zerind" 75) ∧
  canonical (create_edge ∅ "arad" "zerind" 75).
Proof.
  apply (graph_operations_keep_title_case ∅ "arad" "arad" "zerind" 75).
  exact canonical_empty.
Defined.

(** ** [Node] and [retrace_path] *)

(** X7. [retrace_path] returns a route for every node, never its
    fallback message "Path could not be retraced.": the node's total
    cost, and one identifier per node of the parent chain, ending with
    the node's own.  The route of a child made by [add_child_node] is
    the route of its parent followed by the child's identifier, with the
    parent's cost plus the edge cost.  The string it stands for is not
    empty, so it counts as true in [if path:]. *)
Theorem retrace_path_always_a_route (n : Node) :
  retrace_path n = Route (retrace_from n []) (get_total_cost n) ∧
  length (retrace_from n []) = S (depth n) ∧
  last (retrace_from n []) = Some (get_node_identifier n) ∧
  (∀ i c, retrace_path (add_child_node n i c)
          = Route (retrace_from n [] ++ [i]) (get_total_cost n + c)) ∧
  (∀ s, route_string (retrace_path n) = Some s → s ≠ "").
Proof.
  split_and!.
  - apply retrace_path_route.
  - apply retrace_length.
  - destruct n as [i [p|] t]; simpl; [|done].
    rewrite retrace_from_app. apply last_snoc.
  - intros i c. by rewrite retrace_path_route, retrace_child.
  - intros s. rewrite retrace_path_route. simpl. intros [= <-].
    by destruct (join ", " (retrace_from n [])).
Qed.

Lemma retrace_path_always_a_route_witness :
  ∃ s, route_string (retrace_path (Node_init "Arad" None 0)) = Some s ∧ s ≠ "".
Proof.
  eexists. split; [reflexivity|].
  apply (proj2 (proj2 (proj2 (proj2
           (retrace_path_always_a_route (Node_init "Arad" None 0)))))).
  reflexivity.
Defined.

(** ** The four searches *)

(** X8. [breadth_first_search] and [depth_first_search] end on every
    graph and for every pair of identifiers: the loop makes at most one
    pass for the root and one for each stored adjacency entry
    ([enough_fuel] is one more than the number of stored entries), so
    with that much fuel the result is never the out-of-fuel mark. *)
Theorem frontier_searches_terminate
    (g : gmap string (list (string * Z))) (o d : string) (fuel : nat) :
  (enough_fuel g ≤ fuel)%nat →
  breadth_first_search fuel g o d ≠ Diverge ∧
  depth_first_search fuel g o d ≠ Diverge.
Proof.
  intros Hfuel. unfold breadth_first_search, depth_first_search.
  destruct (validate g (title o) (title d)) as [failure|] eqn:Hval.
  { split; intros ->; validation_failed Hval. }
  apply validate_None in Hval as (_ & Ho & _).
  pose proof (work_initial g (title o)) as Hwork.
  assert (Hloop : ∀ r,
            loop_outcome g (title o) (title d)
              (work g (initial_visited (get_graph_nodes g)) [Node_init (title o) None 0])
              fuel r →
            r ≠ Diverge).
  { intros r [[_ ?]|[->|[(k & x & c & -> & _)|(n & _ & _ & ->)]]];
      [lia|done..|by rewrite retrace_path_route]. }
  split.
  - apply Hloop, bfs_loop_outcome. by apply frontier_ok_initial.
  - apply Hloop, dfs_loop_outcome. by apply frontier_ok_initial.
Qed.

Lemma frontier_searches_terminate_witness :
  breadth_first_search 4 triangle "a" "d" ≠ Diverge ∧
  depth_first_search 4 triangle "a" "d" ≠ Diverge.
Proof.
  apply (frontier_searches_terminate triangle "a" "d" 4).
  vm_compute. lia.
Defined.

(** The bound is reached: [triangle] stores three adjacency entries, the
    search for the isolated ["D"] needs all four passes, and with three
    the loop is still running. *)
Example frontier_search_needs_all_passes :
  enough_fuel triangle = 4%nat ∧
  breadth_first_search 4 triangle "a" "d" = Msg "Path not found" ∧
  breadth_first_search 3 triangle "a" "d" = Diverge.
Proof. split_and!; by vm_compute. Qed.

Lemma ids_loop_no_key_error fuel g o d step_size :
  ∀ start : nat,
    (∀ l k, depth_limited_search g o d l ≠ KeyError k) →
    ∀ k, ids_loop fuel g o d start step_size ≠ KeyError k.
Proof.
  induction fuel as [|fuel IH]; intros start Hno k; [done|]. simpl.
  pose proof (Hno start) as Hs.
  destruct (depth_limited_search g o d start) eqn:Hr; simpl;
    try done; try (by apply IH).
  case_bool_decide; simpl; [by apply IH|done].
Qed.

(** X9. On a graph in which every neighbour identifier is a key, none
    of the four searches raises [KeyError], whatever the identifiers, the
    fuel, the depth limit and the step size. *)
Theorem closed_graph_never_raises
    (g : gmap string (list (string * Z))) (o d : string)
    (fuel depth_limit step_size : nat) (k : string) :
  closed g →
  breadth_first_search fuel g o d ≠ KeyError k ∧
  depth_first_search fuel g o d ≠ KeyError k ∧
  depth_limited_search g o d depth_limit ≠ KeyError k ∧
  iterative_deepening_search fuel g o d step_size ≠ KeyError k.
Proof.
  intros Hcl.
  unfold breadth_first_search, depth_first_search, iterative_deepening_search.
  assert (Hdls : ∀ l k', depth_limited_search g o d l ≠ KeyError k').
  { intros l k'. unfold depth_limited_search.
    destruct (validate g (title o) (title d)) as [failure|] eqn:Hval.
    { intros ->; validation_failed Hval. }
    apply validate_None in Hval as (_ & Ho & _).
    destruct (recursive_dls_closed g (title o) (title d) l _ Hcl Ho (wf_root g (title o)))
      as [-> |[-> |(m & _ & _ & _ & ->)]]; [done..|by rewrite retrace_path_route]. }
  destruct (validate g (title o) (title d)) as [failure|] eqn:Hval.
  { split_and!; [intros ->; validation_failed Hval..|apply Hdls|
                 intros ->; validation_failed Hval]. }
  pose proof (proj1 (validate_None _ _ _) Hval) as (_ & Ho & _).
  assert (Hloop : ∀ budget r,
            loop_outcome g (title o) (title d) budget fuel r → r ≠ KeyError k).
  { intros budget r [[-> _]|[->|[(k' & x & c & _ & He & Hnone)|(n & _ & _ & ->)]]];
      [done..| |by rewrite retrace_path_route].
    destruct (closed_edge g x k' c Hcl He) as [? ?]. congruence. }
  split_and!.
  - eapply Hloop, bfs_loop_outcome. by apply frontier_ok_initial.
  - eapply Hloop, dfs_loop_outcome. by apply frontier_ok_initial.
  - apply Hdls.
  - apply ids_loop_no_key_error. intros l k'.
    rewrite depth_limited_search_titled. apply Hdls.
Qed.

Lemma closed_graph_never_raises_witness :
  breadth_first_search 3 romania "arad" "oradea" ≠ KeyError "Zerind" ∧
  depth_first_search 3 romania "arad" "oradea" ≠ KeyError "Zerind" ∧
  depth_limited_search romania "arad" "oradea" 4 ≠ KeyError "Zerind" ∧
  iterative_deepening_search 3 romania "arad" "oradea" 2 ≠ KeyError "Zerind".
Proof.
  apply (closed_graph_never_raises romania "arad" "oradea" 3 4 2 "Zerind").
  exact closed_romania.
Defined.

(** X10. The searches put their arguments in title case themselves, and
    title case is stable: calling them with identifiers already in title
    case, as the main program does, gives the same result as calling them
    with the raw identifiers. *)
Theorem searches_accept_titled_arguments
    (g : gmap string (list (string * Z))) (o d : string)
    (fuel depth_limit step_size : nat) :
  breadth_first_search fuel g (title o) (title d)
  = breadth_first_search fuel g o d ∧
  depth_first_search fuel g (title o) (title d)
  = depth_first_search fuel g o d ∧
  depth_limited_search g (title o) (title d) depth_limit
  = depth_limited_search g o d depth_limit ∧
  iterative_deepening_search fuel g (title o) (title d) step_size
  = iterative_deepening_search fuel g o d step_size.
Proof.
  unfold breadth_first_search, depth_first_search, depth_limited_search,
    iterative_deepening_search.
  by rewrite !title_idempotent.
Qed.

Lemma depth_limit_zero g o d :
  validate g (title o) (title d) = None →
  depth_limited_search g o d 0 = PyFalse.
Proof.
  intros Hval. rewrite depth_limited_search_start by done. simpl.
  apply validate_None in Hval as (Hne & _). by rewrite bool_decide_eq_false_2.
Qed.

(** X11. With limit 0 [depth_limited_search] answers [False] for every
    valid pair of distinct identifiers, also when the destination is a
    neighbour of the origin; hence [iterative_deepening_search] with step
    size 0 repeats that call for ever and returns nothing, whether or not
    a path exists. *)
Theorem step_size_zero_never_returns
    (g : gmap string (list (string * Z))) (o d : string) (fuel : nat) :
  title o ≠ title d →
  is_Some (g !! title o) →
  is_Some (g !! title d) →
  depth_limited_search g o d 0 = PyFalse ∧
  iterative_deepening_search fuel g o d 0 = Diverge.
Proof.
  intros Hne Ho Hd.
  assert (Hval : validate g (title o) (title d) = None) by (by apply validate_None).
  split; [by apply depth_limit_zero|].
  unfold iterative_deepening_search. rewrite Hval. clear Ho Hd.
  assert (H0 : depth_limited_search g (title o) (title d) 0 = PyFalse).
  { apply depth_limit_zero. by rewrite !title_idempotent. }
  induction fuel as [|fuel IH]; [done|]. simpl. by rewrite H0.
Qed.

Lemma step_size_zero_never_returns_witness :
  depth_limited_search romania "arad" "zerind" 0 = PyFalse ∧
  iterative_deepening_search 50 romania "arad" "zerind" 0 = Diverge.
Proof.
  apply (step_size_zero_never_returns romania "arad" "zerind" 50).
  - vm_compute. discriminate.
  - vm_compute. eauto.
  - vm_compute. eauto.
Defined.

(** *** Depth-limited search finds every path within its limit *)

Lemma hops_zero g x z : hops g x z 0 → x = z.
Proof. by inversion 1. Qed.

Lemma hops_head g x z j :
  hops g x z (S j) → ∃ y c, edge g x y c ∧ hops g y z j.
Proof.
  revert z. induction j as [|j IH]; intros z Hh;
    inversion Hh as [|w z' c j' Hw He]; subst.
  - apply hops_zero in Hw as ->. exists z, c. split; [done|constructor].
  - destruct (IH w Hw) as (y & c' & Hxy & Hy). exists y, c'.
    split; [done|]. econstructor; eauto.
Qed.

Lemma dls_children_truthy (recurse : Node → result) cur adjacency b :
  Forall (λ e : string * Z,
            recurse (add_child_node cur e.1 e.2) = PyFalse ∨
            recurse (add_child_node cur e.1 e.2) = PyNone ∨
            ∃ m, recurse (add_child_node cur e.1 e.2) = retrace_path m)
         adjacency →
  Exists (λ e : string * Z,
            ∃ m, recurse (add_child_node cur e.1 e.2) = retrace_path m)
         adjacency →
  ∃ m, dls_children recurse cur adjacency b = retrace_path m.
Proof.
  intros HF. revert b. induction HF as [|e adj He _ IH]; intros b Hex.
  - by apply Exists_nil in Hex.
  - simpl. destruct He as [Hr|[Hr|[m Hr]]].
    + rewrite Hr. simpl. apply IH.
      apply Exists_cons in Hex as [[m Hm]|?]; [|done].
      rewrite Hr, retrace_path_route in Hm. done.
    + rewrite Hr. simpl. apply IH.
      apply Exists_cons in Hex as [[m Hm]|?]; [|done].
      rewrite Hr, retrace_path_route in Hm. done.
    + rewrite Hr, retrace_path_route. simpl. rewrite <- retrace_path_route. eauto.
Qed.

Lemma recursive_dls_complete g o d :
  closed g → is_Some (g !! o) →
  ∀ depth_limit n j,
    wf_node g o n → hops g (get_node_identifier n) d j → (j ≤ depth_limit)%nat →
    ∃ m, recursive_dls g n d depth_limit = retrace_path m.
Proof.
  intros Hcl Ho. induction depth_limit as [|L IH]; intros n j Hwf Hh Hj; simpl.
  - case_bool_decide as Hd; [eauto|].
    assert (j = 0%nat) as -> by lia. by apply hops_zero in Hh.
  - case_bool_decide as Hd; [eauto|].
    destruct j as [|j]; [by apply hops_zero in Hh|].
    apply hops_head in Hh as (y & c & (adjacency & Hadj & Hin) & Hy).
    rewrite Hadj.
    assert (Hchild : ∀ e : string * Z, e ∈ adjacency →
                       wf_node g o (add_child_node n e.1 e.2)).
    { intros [i c'] Hi. constructor; [done|]. by exists adjacency. }
    apply dls_children_truthy.
    + apply Forall_forall. intros e He.
      destruct (recursive_dls_closed g o d L _ Hcl Ho (Hchild e He))
        as [?|[?|(m & _ & _ & _ & ?)]]; eauto.
    + apply Exists_exists. exists (y, c). split; [done|].
      apply (IH _ j); [by apply (Hchild (y, c))|done|lia].
Qed.

(** On a closed graph a depth-limited search from valid identifiers
    returns [False], [None] or a route. *)
Lemma depth_limited_search_closed g o d depth_limit :
  closed g → validate g (title o) (title d) = None →
  depth_limited_search g o d depth_limit = PyFalse ∨
  depth_limited_search g o d depth_limit = PyNone ∨
  ∃ ids cost, depth_limited_search g o d depth_limit = Route ids cost.
Proof.
  intros Hcl Hval. rewrite depth_limited_search_start by done.
  apply validate_None in Hval as (_ & Ho & _).
  destruct (recursive_dls_closed g (title o) (title d) depth_limit _ Hcl Ho
              (wf_root g (title o)))
    as [?|[?|(m & _ & _ & _ & Hm)]]; auto.
  right; right. rewrite Hm, retrace_path_route. eauto.
Qed.

Lemma depth_limited_search_complete g o d depth_limit ids0 :
  closed g → validate g (title o) (title d) = None →
  path_from_to g (title o) (title d) ids0 →
  (edges_of ids0 ≤ depth_limit)%nat →
  ∃ ids cost, depth_limited_search g o d depth_limit = Route ids cost.
Proof.
  intros Hcl Hval (Hh & Hl & costs & Hw) Hle.
  rewrite depth_limited_search_start by done.
  apply validate_None in Hval as (_ & Ho & _).
  destruct (recursive_dls_complete g (title o) (title d) Hcl Ho depth_limit
              (Node_init (title o) None 0) (edges_of ids0)) as [m Hm];
    [constructor|by eapply walk_hops|done|].
  rewrite Hm, retrace_path_route. eauto.
Qed.

Lemma depth_limited_search_route_path g o d depth_limit ids cost :
  depth_limited_search g o d depth_limit = Route ids cost →
  path_from_to g (title o) (title d) ids ∧ (edges_of ids ≤ depth_limit)%nat.
Proof.
  intros Hr.
  apply depth_limited_search_route in Hr as (n & Hwf & Hid & Hdepth & Hr).
  rewrite retrace_path_route in Hr. injection Hr as -> ->. split.
  - rewrite <- Hid. by apply wf_node_reachable.
  - unfold edges_of. rewrite retrace_length. simpl. lia.
Qed.

(** X12. On a graph in which every neighbour identifier is a key, for
    distinct identifiers that are keys, [depth_limited_search] returns a
    route whenever some path from the origin to the destination has no
    more edges than the limit and the call stack has room for as many
    nested levels as the limit; the route leads from the origin to the
    destination and respects the limit (it need not be the given path). *)
Theorem dls_finds_paths_within_limit
    (g : gmap string (list (string * Z))) (o d : string) (L stack : nat)
    (ids0 : list string) :
  closed g →
  title o ≠ title d →
  is_Some (g !! title o) →
  is_Some (g !! title d) →
  path_from_to g (title o) (title d) ids0 →
  (edges_of ids0 ≤ L)%nat →
  (L ≤ stack)%nat →
  ∃ ids cost,
    depth_limited_search_stack stack g o d L = Route ids cost ∧
    path_from_to g (title o) (title d) ids ∧
    (edges_of ids ≤ L)%nat.
Proof.
  intros Hcl Hne Ho Hd Hp Hle Hstack.
  assert (Hval : validate g (title o) (title d) = None) by (by apply validate_None).
  destruct (depth_limited_search_complete g o d L ids0 Hcl Hval Hp Hle)
    as (ids & cost & Hr).
  exists ids, cost. rewrite depth_limited_search_stack_enough by done.
  split; [done|]. by eapply depth_limited_search_route_path.
Qed.

Lemma dls_finds_paths_within_limit_witness :
  ∃ ids cost,
    depth_limited_search_stack 9 romania "arad" "oradea" 5 = Route ids cost ∧
    path_from_to romania (title "arad") (title "oradea") ids ∧
    (edges_of ids ≤ 5)%nat.
Proof.
  apply (dls_finds_paths_within_limit romania "arad" "oradea" 5 9
           ["Arad"; "Zerind"; "Oradea"]).
  - exact closed_romania.
  - vm_compute. discriminate.
  - vm_compute. eauto.
  - vm_compute. eauto.
  - exact path_arad_oradea.
  - vm_compute. lia.
  - lia.
Defined.

(** X13. On a graph in which every neighbour identifier is a key,
    raising the limit loses no solution as long as the call stack has
    room for the larger limit: when [depth_limited_search] returns a
    route at some limit, it returns a route (possibly another one) at
    every larger limit that the stack has room for. *)
Theorem dls_success_persists
    (g : gmap string (list (string * Z))) (o d : string) (L L' stack : nat)
    (ids : list string) (cost : Z) :
  closed g →
  depth_limited_search_stack stack g o d L = Route ids cost →
  (L ≤ L')%nat →
  (L' ≤ stack)%nat →
  ∃ ids' cost',
    depth_limited_search_stack stack g o d L' = Route ids' cost' ∧
    path_from_to g (title o) (title d) ids' ∧
    (edges_of ids' ≤ L')%nat.
Proof.
  intros Hcl Hr Hle Hstack.
  rewrite depth_limited_search_stack_enough in Hr by lia.
  destruct (validate g (title o) (title d)) as [failure|] eqn:Hval.
  { unfold depth_limited_search in Hr. rewrite Hval in Hr. subst failure.
    validation_failed Hval. }
  destruct (depth_limited_search_route_path _ _ _ _ _ _ Hr) as [Hp Hedges].
  destruct (depth_limited_search_complete g o d L' ids Hcl Hval Hp ltac:(lia))
    as (ids' & cost' & Hr').
  exists ids', cost'. rewrite depth_limited_search_stack_enough by done.
  split; [done|]. by eapply depth_limited_search_route_path.
Qed.

Lemma dls_success_persists_witness :
  ∃ ids' cost',
    depth_limited_search_stack 9 romania "arad" "oradea" 6 = Route ids' cost' ∧
    path_from_to romania (title "arad") (title "oradea") ids' ∧
    (edges_of ids' ≤ 6)%nat.
Proof.
  apply (dls_success_persists romania "arad" "oradea" 2 6 9
           ["Arad"; "Zerind"; "Oradea"] 146).
  - exact closed_romania.
  - by vm_compute.
  - lia.
  - lia.
Defined.

(** *** Iterative deepening with any step size *)

Lemma ids_loop_stack_first_step stack g o d r (step_size gap : nat) :
  ∀ (start fuel : nat),
    (∀ j, (j < gap)%nat →
          depth_limited_search_stack stack g o d (start + j * step_size) = PyFalse ∨
          depth_limited_search_stack stack g o d (start + j * step_size) = PyNone) →
    depth_limited_search_stack stack g o d (start + gap * step_size) = r →
    truthy r = true →
    (gap < fuel)%nat →
    ids_loop_stack stack fuel g o d start step_size = r.
Proof.
  induction gap as [|gap IH]; intros start fuel Hlow Hr Ht Hfuel;
    (destruct fuel as [|fuel]; [lia|]); simpl.
  - simpl in Hr. rewrite Nat.add_0_r in Hr. rewrite Hr.
    destruct r; simpl in *; try done. by rewrite Ht.
  - pose proof (Hlow 0%nat ltac:(lia)) as H0. simpl in H0.
    rewrite Nat.add_0_r in H0.
    destruct H0 as [-> | ->]; simpl;
      (apply IH; [|by rewrite <- Hr; f_equal; simpl; lia|done|lia]);
      intros j Hj; specialize (Hlow (S j) ltac:(lia)); simpl in Hlow;
      by replace (start + step_size + j * step_size)%nat
        with (start + (step_size + j * step_size))%nat by lia.
Qed.

(** Among the first indices up to a bound, either all satisfy [P] or
    there is a first one that satisfies [Q]. *)
Lemma first_index (P Q : nat → Prop) :
  (∀ i, P i ∨ Q i) →
  ∀ bound : nat,
    (∃ gap : nat, (gap ≤ bound)%nat ∧ Q gap ∧ ∀ j : nat, (j < gap)%nat → P j) ∨
    (∀ j : nat, (j ≤ bound)%nat → P j).
Proof.
  intros HPQ. induction bound as [|b [(gap & ? & ? & ?)|Hall]].
  - destruct (HPQ 0%nat) as [HP|HQ].
    + right. intros j Hj. by replace j with 0%nat by lia.
    + left. exists 0%nat. split_and!; [lia|done|intros j Hj; lia].
  - left. exists gap. split_and!; [lia|done..].
  - destruct (HPQ (S b)) as [HP|HQ].
    + right. intros j Hj. destruct (decide (j = S b)) as [->|]; [done|].
      apply Hall. lia.
    + left. exists (S b). split_and!; [lia|done|]. intros j Hj. apply Hall. lia.
Qed.

Lemma ids_returns_within_step stack g o d (step_size fuel : nat) ids0 :
  closed g → validate g (title o) (title d) = None →
  path_from_to g (title o) (title d) ids0 →
  (1 ≤ step_size)%nat →
  (edges_of ids0 + step_size ≤ S stack)%nat →
  (edges_of ids0 < fuel)%nat →
  ∃ ids cost,
    iterative_deepening_search_stack stack fuel g o d step_size = Route ids cost ∧
    path_from_to g (title o) (title d) ids ∧
    (edges_of ids < edges_of ids0 + step_size)%nat.
Proof.
  intros Hcl Hval Hp Hstep Hstack Hfuel.
  unfold iterative_deepening_search_stack. rewrite Hval.
  set (dls := λ l, depth_limited_search g o d l).
  destruct (first_index
              (λ i, dls (i * step_size)%nat = PyFalse ∨ dls (i * step_size)%nat = PyNone)
              (λ i, ∃ ids cost, dls (i * step_size)%nat = Route ids cost))
    with (bound := edges_of ids0) as [(gap & Hgap & (ids & cost & Hr) & Hlow)|Hall].
  - intros i. unfold dls.
    destruct (depth_limited_search_closed g o d (i * step_size) Hcl Hval)
      as [?|[?|?]]; auto.
  - unfold dls in *.
    destruct (depth_limited_search_route_path _ _ _ _ _ _ Hr) as [Hpath Hedges].
    assert (Hlast : (gap * step_size < edges_of ids0 + step_size)%nat).
    { destruct gap as [|gap']; [simpl; lia|].
      destruct (decide (edges_of ids0 ≤ gap' * step_size)%nat) as [Hge|Hlt];
        [|simpl; lia].
      destruct (depth_limited_search_complete g o d _ ids0 Hcl Hval Hp Hge)
        as (ids1 & cost1 & Hr1).
      destruct (Hlow gap' ltac:(lia)) as [Hf|Hf]; congruence. }
    exists ids, cost. split_and!; [|done|lia].
    apply (ids_loop_stack_first_step stack g (title o) (title d) _ step_size gap 0 fuel);
      [| |done|lia].
    + intros j Hj. rewrite depth_limited_search_stack_titled.
      rewrite depth_limited_search_stack_enough; [by apply Hlow|].
      simpl. assert (j * step_size < gap * step_size)%nat by nia. lia.
    + rewrite depth_limited_search_stack_titled.
      rewrite depth_limited_search_stack_enough; [done|]. simpl. lia.
  - unfold dls in Hall.
    assert (Hge : (edges_of ids0 ≤ edges_of ids0 * step_size)%nat) by nia.
    destruct (depth_limited_search_complete g o d _ ids0 Hcl Hval Hp Hge)
      as (ids1 & cost1 & Hr1).
    destruct (Hall (edges_of ids0) ltac:(lia)) as [Hf|Hf]; congruence.
Qed.

(** X14. On a graph in which every neighbour identifier is a key, for
    distinct identifiers that are keys and are connected,
    [iterative_deepening_search] with a step size of at least 1 returns
    a route from the origin to the destination, and that route exceeds
    the edge count of any path between them by less than the step size,
    provided the call stack has room for every limit tried up to there
    (these limits are smaller than that edge count plus the step
    size). *)
Theorem ids_overshoots_by_less_than_step
    (g : gmap string (list (string * Z))) (o d : string)
    (step_size fuel stack : nat) (ids0 : list string) :
  closed g →
  title o ≠ title d →
  is_Some (g !! title o) →
  is_Some (g !! title d) →
  path_from_to g (title o) (title d) ids0 →
  (1 ≤ step_size)%nat →
  (edges_of ids0 + step_size ≤ S stack)%nat →
  (edges_of ids0 < fuel)%nat →
  ∃ ids cost,
    iterative_deepening_search_stack stack fuel g o d step_size = Route ids cost ∧
    path_from_to g (title o) (title d) ids ∧
    (edges_of ids < edges_of ids0 + step_size)%nat.
Proof.
  intros Hcl Hne Ho Hd Hp Hstep Hstack Hfuel.
  apply ids_returns_within_step; try done. by apply validate_None.
Qed.

Lemma ids_overshoots_by_less_than_step_witness :
  ∃ ids cost,
    iterative_deepening_search_stack 4 3 romania "arad" "oradea" 3 = Route ids cost ∧
    path_from_to romania (title "arad") (title "oradea") ids ∧
    (edges_of ids < edges_of ["Arad"; "Zerind"; "Oradea"] + 3)%nat.
Proof.
  apply (ids_overshoots_by_less_than_step romania "arad" "oradea" 3 3 4).
  - exact closed_romania.
  - vm_compute. discriminate.
  - vm_compute. eauto.
  - vm_compute. eauto.
  - exact path_arad_oradea.
  - lia.
  - vm_compute. lia.
  - vm_compute. lia.
Defined.

(** X15. On a graph in which every neighbour identifier is a key, for
    distinct identifiers that are keys and are connected by a path that
    has no more edges than the call stack has room for nested levels,
    [iterative_deepening_search] with step size 1 returns a route with
    the fewest edges among all paths from the origin to the
    destination. *)
Theorem ids_step_one_returns_fewest_edges
    (g : gmap string (list (string * Z))) (o d : string) (fuel stack : nat)
    (ids0 : list string) :
  closed g →
  title o ≠ title d →
  is_Some (g !! title o) →
  is_Some (g !! title d) →
  path_from_to g (title o) (title d) ids0 →
  (edges_of ids0 ≤ stack)%nat →
  (edges_of ids0 < fuel)%nat →
  ∃ ids cost,
    iterative_deepening_search_stack stack fuel g o d 1 = Route ids cost ∧
    path_from_to g (title o) (title d) ids ∧
    ∀ ids', path_from_to g (title o) (title d) ids' →
            (edges_of ids ≤ edges_of ids')%nat.
Proof.
  intros Hcl Hne Ho Hd Hp Hstack Hfuel.
  assert (Hval : validate g (title o) (title d) = None) by (by apply validate_None).
  destruct (ids_returns_within_step stack g o d 1 fuel ids0 Hcl Hval Hp
              ltac:(lia) ltac:(lia) Hfuel)
    as (ids & cost & Hr & Hpath & Hedges).
  exists ids, cost. split_and!; [done..|]. intros ids' Hp'.
  destruct (decide (edges_of ids0 ≤ edges_of ids')%nat) as [?|Hshort]; [lia|].
  destruct (ids_returns_within_step stack g o d 1 fuel ids' Hcl Hval Hp' ltac:(lia)
              ltac:(lia) ltac:(lia)) as (ids2 & cost2 & Hr2 & _ & Hedges2).
  rewrite Hr in Hr2. injection Hr2 as <- <-. lia.
Qed.

Lemma ids_step_one_returns_fewest_edges_witness :
  ∃ ids cost,
    iterative_deepening_search_stack 2 3 romania "arad" "oradea" 1 = Route ids cost ∧
    path_from_to romania (title "arad") (title "oradea") ids ∧
    ∀ ids', path_from_to romania (title "arad") (title "oradea") ids' →
            (edges_of ids ≤ edges_of ids')%nat.
Proof.
  apply (ids_step_one_returns_fewest_edges romania "arad" "oradea" 3 2
           ["Arad"; "Zerind"; "Oradea"]).
  - exact closed_romania.
  - vm_compute. discriminate.
  - vm_compute. eauto.
  - vm_compute. eauto.
  - exact path_arad_oradea.
  - vm_compute. lia.
  - vm_compute. lia.
Defined.

(** *** Depth-first search reaches everything reachable *)

Section Explored.
Variable g : gmap string (list (string * Z)).
Variables o d : string.
Hypothesis origin_not_destination : o ≠ d.

(** The origin is expanded or waits in the frontier; no expanded node
    has the destination as a neighbour; every neighbour of an expanded
    node is expanded or waits in the frontier. *)
Definition explored (visited : gmap string bool) (frontier : list Node) : Prop :=
  (visited !! o = Some true ∨ ∃ n, n ∈ frontier ∧ get_node_identifier n = o) ∧
  (∀ x y c, visited !! x = Some true → edge g x y c → y ≠ d) ∧
  (∀ x y c, visited !! x = Some true → edge g x y c →
            visited !! y = Some true ∨
            ∃ n, n ∈ frontier ∧ get_node_identifier n = y).

Lemma explored_initial :
  explored (initial_visited (get_graph_nodes g)) [Node_init o None 0].
Proof.
  split_and!.
  - right. exists (Node_init o None 0). split; [set_solver|done].
  - intros x y c Hx. rewrite initial_visited_lookup in Hx. by destruct (g !! x).
  - intros x y c Hx. rewrite initial_visited_lookup in Hx. by destruct (g !! x).
Qed.

Lemma explored_empty visited j : explored visited [] → ¬ hops g o d j.
Proof.
  intros (Horig & Hgoal & Hsucc) Hh.
  assert (Hall : ∀ w i, hops g o w i → visited !! w = Some true).
  { induction 1 as [|x y c i Hx IH He].
    - destruct Horig as [?|(n & Hn & _)]; [done|by apply elem_of_nil in Hn].
    - destruct (Hsucc x y c IH He) as [?|(n & Hn & _)];
        [done|by apply elem_of_nil in Hn]. }
  inversion Hh as [|x y c j' Hx He]; subst; [done|].
  by destruct (Hgoal x d c (Hall x j' Hx) He).
Qed.

Lemma explored_skip visited cur frontier frontier' :
  explored visited frontier →
  (∀ n, n ∈ frontier → n = cur ∨ n ∈ frontier') →
  visited !! get_node_identifier cur = Some true →
  explored visited frontier'.
Proof.
  intros (Horig & Hgoal & Hsucc) Hsub Hv. split_and!; [|done|].
  - destruct Horig as [?|(n & Hn & Hid)]; [by left|].
    destruct (Hsub n Hn) as [->|?]; [left; congruence|right; eauto].
  - intros x y c Hx He.
    destruct (Hsucc x y c Hx He) as [?|(n & Hn & Hid)]; [by left|].
    destruct (Hsub n Hn) as [->|?]; [left; congruence|right; eauto].
Qed.

Lemma explored_expand visited cur frontier rest adjacency :
  explored visited frontier →
  (∀ n, n ∈ frontier → n = cur ∨ n ∈ rest) →
  g !! get_node_identifier cur = Some adjacency →
  Forall (λ e : string * Z,
            e.1 ≠ d ∧ is_Some (<[get_node_identifier cur := true]> visited !! e.1))
         adjacency →
  explored (<[get_node_identifier cur := true]> visited)
    (rest ++ new_children (<[get_node_identifier cur := true]> visited) cur adjacency).
Proof.
  intros (Horig & Hgoal & Hsucc) Hsub Hadj HF.
  assert (Hmono : ∀ k, visited !! k = Some true →
                       <[get_node_identifier cur := true]> visited !! k = Some true).
  { intros k Hk. rewrite lookup_insert. by case_decide. }
  assert (Hkeep : ∀ y n, n ∈ frontier → get_node_identifier n = y →
            <[get_node_identifier cur := true]> visited !! y = Some true ∨
            ∃ n', n' ∈ rest ++ new_children
                     (<[get_node_identifier cur := true]> visited) cur adjacency ∧
                  get_node_identifier n' = y).
  { intros y n Hn Hid. destruct (Hsub n Hn) as [->|Hin].
    - left. rewrite Hid. apply lookup_insert_eq.
    - right. exists n. split; [|done]. apply elem_of_app. by left. }
  rewrite Forall_forall in HF. split_and!.
  - destruct Horig as [?|(n & Hn & Hid)]; [left; by apply Hmono|by eapply Hkeep].
  - intros x y c Hx He. rewrite lookup_insert in Hx. case_decide as Hxc.
    + subst x. destruct He as (adj' & Hadj' & Hin).
      rewrite Hadj in Hadj'. injection Hadj' as <-. by destruct (HF _ Hin).
    + by eapply Hgoal.
  - intros x y c Hx He. rewrite lookup_insert in Hx. case_decide as Hxc.
    + subst x. destruct He as (adj' & Hadj' & Hin).
      rewrite Hadj in Hadj'. injection Hadj' as <-.
      destruct (HF _ Hin) as [_ [[] Hy]]; simpl in Hy; [by left|].
      right. exists (add_child_node cur y c). split; [|done].
      apply elem_of_app. right. unfold new_children.
      apply (list_elem_of_fmap_2 (λ e : string * Z, add_child_node cur e.1 e.2) _ (y, c)).
      by apply list_elem_of_filter.
    + destruct (Hsucc x y c Hx He) as [?|(n & Hn & Hid)];
        [left; by apply Hmono|by eapply Hkeep].
Qed.

(** [dfs_loop] reports "Path not found" only when no walk leads from the
    origin to the destination. *)
Lemma dfs_loop_not_found fuel visited stack :
  frontier_ok g o visited stack →
  explored visited stack →
  dfs_loop fuel g d visited stack = Msg "Path not found" →
  ∀ j, ¬ hops g o d j.
Proof.
  revert visited stack. induction fuel as [|fuel IH]; intros visited stack Hok Hex;
    simpl; destruct (pop_last stack) as [[rest top]|] eqn:Hp.
  - done.
  - apply pop_last_None in Hp as ->. intros _ j. by apply explored_empty with visited.
  - apply pop_last_Some in Hp as ->.
    destruct Hok as [Hdom HF]. apply Forall_app in HF as [HF Htop].
    apply Forall_singleton in Htop as [Hwf Hcur].
    assert (Hg : is_Some (g !! get_node_identifier top)) by (by apply Hdom).
    assert (Hsub : ∀ n, n ∈ rest ++ [top] → n = top ∨ n ∈ rest).
    { intros n [?|?%list_elem_of_singleton]%elem_of_app; auto. }
    destruct (visit_cases g d visited top rest (dfs_loop fuel g d) Hcur Hg)
      as [[Hv ->]|(adjacency & Hv & Hadj &
                   [(c & Hin & ->)|[(k & c & Hin & Hk & ->)|[HFa ->]]])].
    + apply IH; [by split|]. by eapply explored_skip.
    + by rewrite retrace_path_route.
    + done.
    + apply IH.
      * apply frontier_ok_expand; [by split|done..].
      * by eapply explored_expand.
  - apply pop_last_None in Hp as ->. intros _ j. by apply explored_empty with visited.
Qed.
End Explored.

(** X16. On a graph in which every neighbour identifier is a key, for
    distinct identifiers that are keys and are connected,
    [depth_first_search] (with fuel for one pass per stored adjacency
    entry) returns a route that leads from the origin to the destination
    along stored edges. *)
Theorem dfs_finds_a_path
    (g : gmap string (list (string * Z))) (o d : string) (fuel : nat) :
  closed g →
  title o ≠ title d →
  is_Some (g !! title o) →
  is_Some (g !! title d) →
  reachable g (title o) (title d) →
  (enough_fuel g ≤ fuel)%nat →
  ∃ ids cost,
    depth_first_search fuel g o d = Route ids cost ∧
    path_from_to g (title o) (title d) ids.
Proof.
  intros Hcl Hne Ho Hd (ids0 & Hh0 & Hl0 & costs0 & Hw0) Hfuel.
  unfold depth_first_search.
  rewrite (proj2 (validate_None g (title o) (title d))) by done.
  pose proof (frontier_ok_initial g (title o) Ho) as Hok.
  pose proof (dfs_loop_outcome g (title o) (title d) fuel _ _ Hok) as Hout.
  pose proof (work_initial g (title o)) as Hwork.
  pose proof (dfs_loop_not_found g (title o) (title d) Hne fuel _ _ Hok
                (explored_initial g (title o) (title d) Hne)) as Hnf.
  destruct Hout as [[_ ?]|[Hmsg|[(k & x & c & _ & He & Hnone)|(n & Hwf & Hid & Hr)]]].
  - lia.
  - destruct (Hnf Hmsg _ (walk_hops g ids0 costs0 _ _ Hw0 Hh0 Hl0)).
  - destruct (closed_edge g x k c Hcl He) as [? ?]. congruence.
  - exists (retrace_from n []), (get_total_cost n).
    split; [by rewrite Hr, retrace_path_route|].
    rewrite <- Hid. by apply wf_node_reachable.
Qed.

Lemma dfs_finds_a_path_witness :
  ∃ ids cost,
    depth_first_search 20 romania "sibiu" "oradea" = Route ids cost ∧
    path_from_to romania (title "sibiu") (title "oradea") ids.
Proof.
  apply (dfs_finds_a_path romania "sibiu" "oradea" 20).
  - exact closed_romania.
  - vm_compute. discriminate.
  - vm_compute. eauto.
  - vm_compute. eauto.
  - exists ["Sibiu"; "Arad"; "Zerind"; "Oradea"]. split_and!; [reflexivity..|].
    exists [140; 75; 71].
    constructor; [|constructor; [|constructor; [|constructor]]].
    + exists [("Arad", 140)]. split; [reflexivity|set_solver].
    + exists [("Zerind", 75); ("Sibiu", 140)]. split; [reflexivity|set_solver].
    + exists [("Arad", 75); ("Oradea", 71)]. split; [reflexivity|set_solver].
  - vm_compute. lia.
Defined.

(** *** Routes of the frontier searches repeat no identifier *)

(** The identifiers above a node in its parent chain. *)
Definition ancestors (n : Node) : list string :=
  match get_parent n with
  | None => []
  | Some p => retrace_from p []
  end.

Lemma retrace_ancestors n :
  retrace_from n [] = ancestors n ++ [get_node_identifier n].
Proof. destruct n as [i [p|] t]; simpl; [apply retrace_from_app|done]. Qed.

(** A frontier node does not carry the destination, its chain repeats no
    identifier, and everything above it has been expanded. *)
Definition tidy (d : string) (visited : gmap string bool) (n : Node) : Prop :=
  get_node_identifier n ≠ d ∧
  NoDup (retrace_from n []) ∧
  Forall (λ a, visited !! a = Some true) (ancestors n).

Definition simple_inv (d : string) (visited : gmap string bool)
    (frontier : list Node) : Prop :=
  (∀ k, visited !! k = Some true → k ≠ d) ∧ Forall (tidy d visited) frontier.

Definition simple_route (r : result) : Prop :=
  ∀ ids cost, r = Route ids cost → NoDup ids.

Lemma tidy_mono d (visited : gmap string bool) k n :
  tidy d visited n → tidy d (<[k := true]> visited) n.
Proof.
  intros (Hid & Hnd & Hanc). split_and!; [done..|].
  eapply Forall_impl; [exact Hanc|]. simpl. intros a Ha.
  rewrite lookup_insert. by case_decide.
Qed.

Lemma tidy_chain_visited d (visited : gmap string bool) cur :
  tidy d visited cur →
  Forall (λ a, <[get_node_identifier cur := true]> visited !! a = Some true)
         (retrace_from cur []).
Proof.
  intros (_ & _ & Hanc). rewrite retrace_ancestors. apply Forall_app. split.
  - eapply Forall_impl; [exact Hanc|]. simpl. intros a Ha.
    rewrite lookup_insert. by case_decide.
  - apply Forall_singleton, lookup_insert_eq.
Qed.

Lemma visit_simple g d visited cur frontier
    (continue_with : gmap string bool → list Node → result) :
  (∀ visited' frontier',
     simple_inv d visited' frontier' → simple_route (continue_with visited' frontier')) →
  simple_inv d visited frontier →
  tidy d visited cur →
  simple_route (visit g d visited cur frontier continue_with).
Proof.
  intros IH [Hgoal HF] Hcur. unfold visit.
  destruct (visited !! get_node_identifier cur) as [[]|] eqn:Hv; [by apply IH| |done].
  destruct (g !! get_node_identifier cur) as [adjacency|] eqn:Hadj; [|done].
  pose proof (tidy_chain_visited d visited cur Hcur) as Hchain.
  rewrite Forall_forall in Hchain.
  assert (Hgoal' : ∀ k, <[get_node_identifier cur := true]> visited !! k = Some true →
                        k ≠ d).
  { intros k Hk. rewrite lookup_insert in Hk. case_decide as Hkc; [|by apply Hgoal].
    subst k. by destruct Hcur. }
  assert (HF' : Forall (tidy d (<[get_node_identifier cur := true]> visited)) frontier).
  { eapply Forall_impl; [exact HF|]. intros n. apply tidy_mono. }
  assert (Hfresh : ∀ i, (∀ a, a ∈ retrace_from cur [] → a ≠ i) →
                        NoDup (retrace_from cur [] ++ [i])).
  { intros i Hi. apply NoDup_app. split_and!.
    - by destruct Hcur as (_ & ? & _).
    - intros a Ha ->%list_elem_of_singleton. by apply (Hi i).
    - apply NoDup_singleton. }
  destruct adjacency as [|e adj']; [by apply IH|].
  destruct (expand_children _ d cur frontier (e :: adj')) as [r|q] eqn:Hex.
  - apply expand_children_inl in Hex as [(c & _ & ->)|(k & c & _ & _ & ->)]; [|done].
    intros ids cost. rewrite retrace_path_route, retrace_child. intros [= <- _].
    apply Hfresh. intros a Ha ->. apply (Hgoal' d); [by apply Hchain|done].
  - apply expand_children_inr in Hex as [-> Hall]. apply IH. split; [done|].
    apply Forall_app. split; [done|].
    unfold new_children. apply Forall_fmap, Forall_forall.
    intros [i c] [Hi Hin]%list_elem_of_filter. simpl in *.
    rewrite Forall_forall in Hall. destruct (Hall _ Hin) as [Hne _]. simpl in Hne.
    split_and!; [done| |].
    + rewrite retrace_child. apply Hfresh. intros a Ha ->.
      specialize (Hchain _ Ha). congruence.
    + apply Forall_forall. exact Hchain.
Qed.

Lemma bfs_loop_simple g d fuel visited queue :
  simple_inv d visited queue → simple_route (bfs_loop fuel g d visited queue).
Proof.
  revert visited queue. induction fuel as [|fuel IH]; intros visited queue Hinv;
    destruct queue as [|cur queue]; simpl; try done.
  destruct Hinv as [Hgoal [Hcur HF]%Forall_cons].
  apply visit_simple; [exact IH|by split|done].
Qed.

Lemma dfs_loop_simple g d fuel visited stack :
  simple_inv d visited stack → simple_route (dfs_loop fuel g d visited stack).
Proof.
  revert visited stack. induction fuel as [|fuel IH]; intros visited stack Hinv;
    simpl; destruct (pop_last stack) as [[rest top]|] eqn:Hp; try done.
  apply pop_last_Some in Hp as ->.
  destruct Hinv as [Hgoal [HF Htop]%Forall_app].
  rewrite Forall_singleton in Htop.
  apply visit_simple; [exact IH|by split|exact Htop].
Qed.

Lemma simple_inv_initial g o d :
  o ≠ d → simple_inv d (initial_visited (get_graph_nodes g)) [Node_init o None 0].
Proof.
  intros Hne. split.
  - intros k Hk. rewrite initial_visited_lookup in Hk. by destruct (g !! k).
  - apply Forall_singleton. split_and!; [done| |constructor].
    simpl. apply NoDup_singleton.
Qed.

(** X17. A route returned by [breadth_first_search] or
    [depth_first_search] passes through no identifier twice, on any
    graph: a child is queued only while its identifier is not marked
    visited, and everything above it in its parent chain is. *)
Theorem frontier_search_routes_are_simple
    (g : gmap string (list (string * Z))) (o d : string) (fuel : nat)
    (ids : list string) (cost : Z) :
  breadth_first_search fuel g o d = Route ids cost ∨
  depth_first_search fuel g o d = Route ids cost →
  NoDup ids.
Proof.
  unfold breadth_first_search, depth_first_search.
  destruct (validate g (title o) (title d)) as [failure|] eqn:Hval.
  { intros [-> | ->]; validation_failed Hval. }
  apply validate_None in Hval as (Hne & _).
  pose proof (simple_inv_initial g (title o) (title d) Hne) as Hinv.
  intros [Hr|Hr].
  - by apply (bfs_loop_simple g (title d) fuel _ _ Hinv ids cost).
  - by apply (dfs_loop_simple g (title d) fuel _ _ Hinv ids cost).
Qed.

Lemma frontier_search_routes_are_simple_witness :
  NoDup ["Sibiu"; "Arad"; "Zerind"; "Oradea"].
Proof.
  apply (frontier_search_routes_are_simple romania "sibiu" "oradea" 20
           ["Sibiu"; "Arad"; "Zerind"; "Oradea"] 286).
  right. by vm_compute.
Defined.

(** In contrast, [depth_limited_search] keeps no visited set and may
    walk a cycle: with limit 4 it goes back to ["A"] before it reaches
    ["C"]. *)
Example dls_route_may_repeat :
  let g := create_node (create_arc (create_arc (create_arc ∅ "a" "b" 1)
             "b" "a" 1) "b" "c" 1) "c" in
  depth_limited_search g "a" "c" 4 = Route ["A"; "B"; "A"; "B"; "C"] 4.
Proof. by vm_compute. Qed.

(** *** What [None] and [False] tell the caller of a depth-limited search *)

Lemma dls_children_after_cutoff (recurse : Node → result) cur adjacency :
  dls_children recurse cur adjacency true ≠ PyNone.
Proof.
  induction adjacency as [|e adj IH]; simpl; [done|].
  destruct (recurse (add_child_node cur e.1 e.2)); simpl; try done.
  by case_bool_decide.
Qed.

Lemma dls_children_None (recurse : Node → result) cur adjacency :
  dls_children recurse cur adjacency false = PyNone → adjacency = [].
Proof.
  destruct adjacency as [|e adj]; [done|]. simpl.
  pose proof (dls_children_after_cutoff recurse cur adj) as Hcut.
  destruct (recurse (add_child_node cur e.1 e.2)); simpl; try done.
  by case_bool_decide.
Qed.

(** X18. For distinct identifiers that are keys,
    [depth_limited_search] returns [None] exactly when the limit is
    positive and the origin itself has an empty adjacency list.  Every
    other search without success returns [False] (or raises), whether a
    limit was met or every branch was exhausted. *)
Theorem dls_none_only_for_isolated_origin
    (g : gmap string (list (string * Z))) (o d : string) (L : nat) :
  title o ≠ title d →
  is_Some (g !! title o) →
  is_Some (g !! title d) →
  depth_limited_search g o d L = PyNone ↔
  (0 < L)%nat ∧ g !! title o = Some [].
Proof.
  intros Hne Ho Hd.
  rewrite depth_limited_search_start by (by apply validate_None).
  destruct L as [|L]; simpl; rewrite bool_decide_eq_false_2 by done.
  - split; [done|intros [? _]; lia].
  - destruct Ho as [adjacency Hadj]. rewrite Hadj. split.
    + intros ->%dls_children_None. split; [lia|done].
    + by intros [_ [= ->]].
Qed.

Lemma dls_none_only_for_isolated_origin_witness :
  depth_limited_search two_islands "a" "b" 3 = PyNone ↔
  (0 < 3)%nat ∧ two_islands !! title "a" = Some [].
Proof.
  apply (dls_none_only_for_isolated_origin two_islands "a" "b" 3).
  - vm_compute. discriminate.
  - vm_compute. eauto.
  - vm_compute. eauto.
Defined.

(** *** The reported cost *)

Lemma walk_costs_stored g ids costs :
  walk g ids costs → Forall (λ c, ∃ x y, edge g x y c) costs.
Proof. induction 1; constructor; eauto. Qed.

Lemma sum_costs_nonneg costs : Forall (λ c, 0 ≤ c) costs → 0 ≤ sum_costs costs.
Proof. induction 1; simpl; lia. Qed.

Lemma sum_costs_unit costs :
  Forall (λ c, c = 1) costs → sum_costs costs = Z.of_nat (length costs).
Proof. induction 1 as [|c l -> _ IH]; simpl; [done|]. rewrite IH. lia. Qed.

Lemma returned_route g o d ids cost :
  (∃ fuel, breadth_first_search fuel g o d = Route ids cost) ∨
  (∃ fuel, depth_first_search fuel g o d = Route ids cost) ∨
  (∃ depth_limit, depth_limited_search g o d depth_limit = Route ids cost) ∨
  (∃ fuel step_size, iterative_deepening_search fuel g o d step_size = Route ids cost) →
  route_of g (title o) (title d) (Route ids cost).
Proof.
  assert (Hdls : ∀ l, depth_limited_search g o d l = Route ids cost →
                      route_of g (title o) (title d) (Route ids cost)).
  { intros l Hl. apply depth_limited_search_route in Hl as (n & ? & ? & _ & ?).
    by exists n. }
  intros [[fuel H]|[[fuel H]|[[l H]|(fuel & step_size & H)]]].
  - by eapply breadth_first_search_route.
  - by eapply depth_first_search_route.
  - by eapply Hdls.
  - apply iterative_deepening_search_route in H as [l H]. by eapply Hdls.
Qed.

(** X19. When no stored cost is negative, the cost reported with a route
    by any of the four searches is not negative; and when every stored
    cost is 1 (the default of [create_arc] and [create_edge]), it is the
    number of edges of the route. *)
Theorem reported_cost_bounds
    (g : gmap string (list (string * Z))) (o d : string)
    (ids : list string) (cost : Z) :
  (∃ fuel, breadth_first_search fuel g o d = Route ids cost) ∨
  (∃ fuel, depth_first_search fuel g o d = Route ids cost) ∨
  (∃ depth_limit, depth_limited_search g o d depth_limit = Route ids cost) ∨
  (∃ fuel step_size, iterative_deepening_search fuel g o d step_size = Route ids cost) →
  ((∀ x y c, edge g x y c → 0 ≤ c) → 0 ≤ cost) ∧
  ((∀ x y c, edge g x y c → c = 1) → cost = Z.of_nat (edges_of ids)).
Proof.
  intros Hret. apply returned_route, route_of_sound in Hret
    as (_ & costs & Hw & ->).
  pose proof (walk_costs_stored g ids costs Hw) as Hst. split.
  - intros Hpos. apply sum_costs_nonneg.
    eapply Forall_impl; [exact Hst|]. simpl. intros c (x & y & He). eauto.
  - intros Hunit. rewrite sum_costs_unit.
    + apply walk_length in Hw. unfold edges_of. rewrite Hw. f_equal. lia.
    + eapply Forall_impl; [exact Hst|]. simpl. intros c (x & y & He). eauto.
Qed.

(** Two roads made with the default cost. *)
Definition unit_chain : gmap string (list (string * Z)) :=
  create_edge (create_edge ∅ "a" "b" 1) "b" "c" 1.

Lemma unit_chain_costs x y c : edge unit_chain x y c → c = 1.
Proof.
  unfold unit_chain.
  intros [[He|[H|H]]%create_edge_edges|[H|H]]%create_edge_edges;
    try (by destruct H as (_ & _ & ->)).
  destruct He as (adj & Hadj & _). by rewrite lookup_empty in Hadj.
Defined.

Lemma reported_cost_bounds_witness :
  breadth_first_search 10 unit_chain "a" "c" = Route ["A"; "B"; "C"] 2 ∧
  0 ≤ 2 ∧ 2 = Z.of_nat (edges_of ["A"; "B"; "C"]).
Proof.
  split; [by vm_compute|].
  destruct (reported_cost_bounds unit_chain "a" "c" ["A"; "B"; "C"] 2)
    as [Hpos Hunit].
  - left. exists 10%nat. by vm_compute.
  - split.
    + apply Hpos. intros x y c He. rewrite (unit_chain_costs _ _ _ He). lia.
    + apply Hunit. exact unit_chain_costs.
Defined.

(** *** The goal test on generation *)

Lemma expand_children_adjacent (visited : gmap string bool) d cur adjacency c :
  Forall (λ e : string * Z, is_Some (visited !! e.1)) adjacency →
  (d, c) ∈ adjacency →
  ∀ frontier,
    ∃ c', (d, c') ∈ adjacency ∧
          expand_children visited d cur frontier adjacency
          = inl (retrace_path (add_child_node cur d c')).
Proof.
  induction 1 as [|[i c0] adj [b Hb] _ IH]; intros Hin frontier;
    [by apply elem_of_nil in Hin|].
  simpl. rewrite py_in_strs_node. simpl in *. case_bool_decide as Hd.
  - subst i. exists c0. split; [left|done].
  - apply elem_of_cons in Hin as [[= ? ?]|Hin]; [congruence|].
    rewrite Hb.
    destruct b.
    + destruct (IH Hin frontier) as (c' & ? & ?).
      exists c'. split; [by right|done].
    + destruct (IH Hin (frontier ++ [add_child_node cur i c0])) as (c' & ? & ?).
      exists c'. split; [by right|done].
Qed.

(** X20. Both frontier searches test for the goal when a child is
    generated, and the root is expanded first: on a graph in which every
    neighbour identifier is a key, a destination that is a neighbour of
    the origin is returned by the very first pass of the loop as the
    route of two identifiers, with the cost of a stored arc between
    them. *)
Theorem adjacent_destination_found_at_once
    (g : gmap string (list (string * Z))) (o d : string) (c : Z) (fuel : nat) :
  closed g →
  title o ≠ title d →
  edge g (title o) (title d) c →
  ∃ c', edge g (title o) (title d) c' ∧
        breadth_first_search (S fuel) g o d = Route [title o; title d] c' ∧
        depth_first_search (S fuel) g o d = Route [title o; title d] c'.
Proof.
  intros Hcl Hne He. pose proof He as (adjacency & Hadj & Hin).
  assert (Hd : is_Some (g !! title d)) by (by eapply closed_edge).
  assert (Hval : validate g (title o) (title d) = None)
    by (apply validate_None; eauto).
  assert (Hkeys : Forall (λ e : string * Z,
            is_Some (<[title o := true]> (initial_visited (get_graph_nodes g)) !! e.1))
            adjacency).
  { apply Forall_forall. intros [y c0] Hy. simpl.
    rewrite lookup_insert. case_decide; [eauto|].
    rewrite initial_visited_lookup, fmap_is_Some.
    eapply closed_edge; [done|]. by exists adjacency. }
  destruct (expand_children_adjacent _ (title d) (Node_init (title o) None 0)
              adjacency c Hkeys Hin []) as (c' & Hin' & Hex).
  exists c'. split; [by exists adjacency|].
  unfold breadth_first_search, depth_first_search. rewrite Hval.
  change (bfs_loop (S fuel) g (title d) (initial_visited (get_graph_nodes g))
            [Node_init (title o) None 0])
    with (visit g (title d) (initial_visited (get_graph_nodes g))
            (Node_init (title o) None 0) [] (bfs_loop fuel g (title d))).
  change (dfs_loop (S fuel) g (title d) (initial_visited (get_graph_nodes g))
            [Node_init (title o) None 0])
    with (visit g (title d) (initial_visited (get_graph_nodes g))
            (Node_init (title o) None 0) [] (dfs_loop fuel g (title d))).
  unfold visit.
  change (get_node_identifier (Node_init (title o) None 0)) with (title o).
  rewrite initial_visited_lookup, Hadj.
  destruct adjacency as [|e adj']; [by apply elem_of_nil in Hin|].
  cbv beta iota. rewrite Hex. rewrite retrace_path_route. done.
Qed.

Lemma adjacent_destination_found_at_once_witness :
  ∃ c', edge romania (title "arad") (title "sibiu") c' ∧
        breadth_first_search 1 romania "arad" "sibiu"
        = Route [title "arad"; title "sibiu"] c' ∧
        depth_first_search 1 romania "arad" "sibiu"
        = Route [title "arad"; title "sibiu"] c'.
Proof.
  apply (adjacent_destination_found_at_once romania "arad" "sibiu" 140 0).
  - exact closed_romania.
  - vm_compute. discriminate.
  - exists [("Zerind", 75); ("Sibiu", 140)]. split; [reflexivity|set_solver].
Defined.
